(** * Instance-based tagging: a shallow embedding of [train_words.py]

    The development follows the source file function by function:
    [move_to_device], [Model.get_word_representations], [get_batch_loss],
    [get_batch_predictions], the body of the loop of [train] and the
    metric computation that ends [evaluate].

    Modelling conventions.
    - Python objects that are passed by reference live in an explicit
      store ([heap]); a function on objects takes and returns references.
    - Tensor entries are real numbers extended with the IEEE special values
      that the source creates on purpose ([float("-inf")]); arithmetic on
      finite entries is exact real arithmetic. Where a property depends
      on rounding, the code is embedded a second time on binary32 values
      (the cosine stage, [f32_cosine_scores]).
    - A Python exception is the value [None] of an [option] result.
    - The pretrained encoder, the optimizer, the schedule and the scorers
      are collaborators of the source file; they are fields of records
      that the embedded functions take as arguments. *)

From Stdlib Require Import ZArith List Bool Lia QArith Reals Lra Permutation String.
From Stdlib Require Lqa SpecFloat.
From stdpp Require Import gmap strings list fin_maps.

(** ** Part I. The embedding *)

(** *** Python objects and the store *)

(** [torch.device]: the run controller builds either ["cpu"] or
    ["cuda:<k>"]. *)
Inductive device : Type :=
| Cpu
| Cuda (index : Z).

Definition device_eqb (d1 d2 : device) : bool :=
  match d1, d2 with
  | Cpu, Cpu => true
  | Cuda i, Cuda j => Z.eqb i j
  | _, _ => false
  end.

(** References into the store. *)
Abbreviation ref := nat (only parsing).

(** The shapes of object that [move_to_device] tells apart with
    [isinstance]; every other object is [Opaque]. Containers hold
    references, so sharing between containers is visible. *)
Inductive pyobj : Type :=
| PyTensor (dev : device) (storage : list Z)
| PyDict (items : list (ref * ref))
| PyList (elems : list ref)
| PyNamedTuple (cls : string) (elems : list ref)
| PyTuple (elems : list ref)
| Opaque (repr : string).

(** The store: the allocated objects and the next free reference. *)
Record heap : Type := Heap {
  objs : gmap nat pyobj;
  next : nat
}.

Definition alloc (h : heap) (o : pyobj) : heap * ref :=
  (Heap (<[next h := o]> (objs h)) (S (next h)), next h).

(** [obj.cuda(device)]: a copy on the device, or the tensor itself when it
    already lives there. *)
Definition tensor_cuda (h : heap) (obj : ref) (dev : device) (storage : list Z)
    (cuda_device : device) : heap * ref :=
  if device_eqb dev cuda_device then (h, obj)
  else alloc h (PyTensor cuda_device storage).

(** A comprehension [f(item) for item in items] whose body allocates:
    the store is threaded from left to right. *)
Fixpoint map_heap (f : heap -> ref -> option (heap * ref)) (h : heap)
    (items : list ref) : option (heap * list ref) :=
  match items with
  | [] => Some (h, [])
  | item :: rest =>
      '(h1, item') ← f h item;
      '(h2, rest') ← map_heap f h1 rest;
      Some (h2, item' :: rest')
  end.

(** [move_to_device(obj, cuda_device)]. [fuel] bounds the depth of the
    recursion, as the interpreter's recursion limit does; [None] is the
    failure of a call that runs out of it (or meets a dangling
    reference, which no Python program can build). [PyTuple] stands for
    plain tuples: [tuple(...)] of no item is the interpreter's one empty
    tuple, which is the object passed in; every other container is built
    anew. *)
Fixpoint move_to_device (fuel : nat) (h : heap) (obj : ref)
    (cuda_device : device) : option (heap * ref) :=
  match fuel with
  | O => None
  | S fuel' =>
      let recur := fun h' item => move_to_device fuel' h' item cuda_device in
      if device_eqb cuda_device Cpu then Some (h, obj)
      else
        match objs h !! obj with
        | None => None
        | Some (PyTensor dev storage) =>
            Some (tensor_cuda h obj dev storage cuda_device)
        | Some (PyDict items) =>
            '(h', values) ← map_heap recur h (map snd items);
            Some (alloc h' (PyDict (combine (map fst items) values)))
        | Some (PyList elems) =>
            '(h', elems') ← map_heap recur h elems;
            Some (alloc h' (PyList elems'))
        | Some (PyNamedTuple cls elems) =>
            '(h', elems') ← map_heap recur h elems;
            Some (alloc h' (PyNamedTuple cls elems'))
        | Some (PyTuple elems) =>
            '(h', elems') ← map_heap recur h elems;
            Some (match elems' with
                  | [] => (h', obj)
                  | _ :: _ => alloc h' (PyTuple elems')
                  end)
        | Some (Opaque _) => Some (h, obj)
        end
  end.

(** A store for the examples: a list [[tensor, {1, 2}]] on the host. *)
Definition sample_heap : heap :=
  Heap (<[2 := PyList [0; 1]]>
        (<[1 := Opaque "set"]>
         (<[0 := PyTensor Cpu [3; 1; 4]%Z]> ∅))) 3.

(** *** The metric computation of [evaluate] *)

(** Python's true division: [ZeroDivisionError] on a zero divisor.
    Quotients are kept exact. *)
Definition py_div (a b : Q) : option Q :=
  if Qeq_bool b 0 then None else Some (a / b)%Q.

(** The scorers are collaborators: they map a batch's predictions and gold
    tags to counts. *)
Record Scorer (Pred Gold : Type) : Type := {
  accuracy_eval : Pred -> Gold -> nat * nat;
  span_eval : Pred -> Gold -> nat * nat * nat
}.
Arguments accuracy_eval {Pred Gold}.
Arguments span_eval {Pred Gold}.

(** Lines 212-216: the counts [(batch_preds, batch_golds, batch_corects)]
    of one batch. *)
Definition batch_counts {Pred Gold : Type} (sc : Scorer Pred Gold)
    (eval_accuracy : bool) (preds : Pred) (golds : Gold) : nat * nat * nat :=
  if eval_accuracy then
    let '(batch_preds, batch_corects) := accuracy_eval sc preds golds in
    (batch_preds, batch_preds, batch_corects)
  else span_eval sc preds golds.

(** Lines 217-219, over the batches of the data set, from
    [0.0, 0.0, 0.0]. The accumulators are floats that hold whole numbers,
    on which float addition is exact: they are integers here. *)
Definition accumulate (counts : list (nat * nat * nat)) : Z * Z * Z :=
  fold_left
    (fun '(total_preds, total_golds, total_corrects)
         '(batch_preds, batch_golds, batch_corects) =>
       ((total_preds + Z.of_nat batch_preds)%Z,
        (total_golds + Z.of_nat batch_golds)%Z,
        (total_corrects + Z.of_nat batch_corects)%Z))
    counts (0%Z, 0%Z, 0%Z).

Definition micro_prec (total_preds total_corrects : Z) : Q :=
  if (0 <? total_preds)%Z
  then (inject_Z total_corrects / inject_Z total_preds)%Q else 0%Q.

Definition micro_rec (total_golds total_corrects : Z) : Q :=
  if (0 <? total_golds)%Z
  then (inject_Z total_corrects / inject_Z total_golds)%Q else 0%Q.

(** Lines 221-224. *)
Definition micro_metrics (totals : Z * Z * Z) : option (Q * Q * Q) :=
  let '(total_preds, total_golds, total_corrects) := totals in
  let p := micro_prec total_preds total_corrects in
  let r := micro_rec total_golds total_corrects in
  micro_f1 ← py_div (2 * p * r)%Q (p + r)%Q;
  Some (p, r, micro_f1).

(** The counts of the batches of a data set, from the decoded
    predictions and the gold tags of each batch. *)
Definition all_counts {Pred Gold : Type} (sc : Scorer Pred Gold)
    (eval_accuracy : bool) (decoded : list (Pred * Gold))
    : list (nat * nat * nat) :=
  map (fun '(preds, golds) => batch_counts sc eval_accuracy preds golds)
      decoded.

(** [evaluate], from the decoded predictions of each batch on (lines
    212-224); [eval_accuracy] is [cfg.eval_accuracy]. *)
Definition evaluate {Pred Gold : Type} (sc : Scorer Pred Gold)
    (eval_accuracy : bool) (decoded : list (Pred * Gold))
    : option (Q * Q * Q) :=
  micro_metrics (accumulate (all_counts sc eval_accuracy decoded)).

(** The pooled counts of a data set, for the statements. *)
Definition pooled_preds (counts : list (nat * nat * nat)) : nat :=
  list_sum (map (fun c => fst (fst c)) counts).
Definition pooled_golds (counts : list (nat * nat * nat)) : nat :=
  list_sum (map (fun c => snd (fst c)) counts).
Definition pooled_corrects (counts : list (nat * nat * nat)) : nat :=
  list_sum (map snd counts).

(** *** Real vectors and matrices *)

Definition Rsum (l : list R) : R := fold_right Rplus 0%R l.

Definition dot (u v : list R) : R := Rsum (zip_with Rmult u v).

(** A matrix is the list of its rows. *)
Definition column (j : nat) (B : list (list R)) : list R :=
  map (fun row => nth j row 0%R) B.

(** The product of [A] (r x s) and [B] (s x c); a row of [A] that is not
    as long as [B] has rows is a shape error. *)
Definition mat_mul (A B : list (list R)) : option (list (list R)) :=
  if forallb (fun a => length a =? length B) A
  then Some (map (fun a => map (fun j => dot a (column j B))
                             (seq 0 (length (hd [] B)))) A)
  else None.

(** *** The representation extractor *)

(** The pretrained encoder behind [self.bert]: token ids and attention
    mask (both B x S) to contextual vectors (B x S x H); [trainable]
    tells whether its parameters require gradients. *)
Record Model : Type := {
  bert : list (list Z) -> list (list Z) -> list (list (list R));
  trainable : bool
}.

(** A representation tensor (batch x seq_len x hidden_dim) and whether
    autograd tracks it. *)
Record rep : Type := Rep {
  rep_data : list (list (list R));
  requires_grad : bool
}.

(** [torch.split(t, split_size, dim=0)]: consecutive chunks of
    [split_size] entries along the batch axis, the last one shorter when
    the size does not divide; an empty tensor gives one empty chunk. *)
Fixpoint split_chunks {A : Type} (fuel k : nat) (t : list A) : list (list A) :=
  match fuel with
  | O => []
  | S fuel' =>
      match t with
      | [] => []
      | _ :: _ => firstn k t :: split_chunks fuel' k (skipn k t)
      end
  end.

Definition torch_split {A : Type} (t : list A) (split_size : Z)
    : option (list (list A)) :=
  if (split_size <? 0)%Z then None
  else
    match t with
    | [] => Some [[]]
    | _ :: _ =>
        if (split_size =? 0)%Z then None
        else Some (split_chunks (length t) (Z.to_nat split_size) t)
    end.

(** [torch.cat(parts, dim=0)]; an empty list of tensors is an error. The
    result is tracked when one of the parts is. *)
Definition torch_cat (parts : list rep) : option rep :=
  match parts with
  | [] => None
  | _ :: _ =>
      Some (Rep (concat (map rep_data parts)) (existsb requires_grad parts))
  end.

(** [torch.bmm(mapper, bertrep)]: batch sizes must agree. *)
Definition bmm (mapper bertrep : list (list (list R)))
    : option (list (list (list R))) :=
  if length mapper =? length bertrep
  then mapM (fun '(m, b) => mat_mul m b) (zip mapper bertrep)
  else None.

(** [mask = (x != 0).long()] *)
Definition attention_mask (x : list (list Z)) : list (list Z) :=
  map (map (fun id => if (id =? 0)%Z then 0%Z else 1%Z)) x.

(** [Model.get_word_representations(x, mapper, shard_batch_size)].
    [grad_enabled] is the autograd mode the caller has set
    ([torch.set_grad_enabled], [torch.no_grad]). The recursive calls of
    the sharded branch pass no shard size, so they run [whole]. *)
Definition get_word_representations (model : Model) (grad_enabled : bool)
    (x : list (list Z)) (mapper : list (list (list R)))
    (shard_batch_size : option Z) : option rep :=
  let whole := fun x mapper =>
    let mask := attention_mask x in
    let bertrep := bert model x mask in
    results ← bmm mapper bertrep;
    Some (Rep results (grad_enabled && trainable model)) in
  match shard_batch_size with
  | Some k =>
      xsplits ← torch_split x k;
      mapper_splits ← torch_split mapper k;
      parts ← mapM (fun '(xsplit, mapper_split) => whole xsplit mapper_split)
                   (zip xsplits mapper_splits);
      torch_cat parts
  | None => whole x mapper
  end.

(** The encoder treats the sentences of a batch one by one. *)
Definition sentencewise (model : Model) : Prop :=
  exists enc : list Z -> list Z -> list (list R),
    forall x mask, bert model x mask = zip_with enc x mask.

(** A toy encoder for the examples: the vector of a token is its id and
    its mask bit. *)
Definition toy_model : Model :=
  {| bert := zip_with (fun ids mask =>
                zip_with (fun id m => [IZR id; IZR m]) ids mask);
     trainable := true |}.

Definition toy_x : list (list Z) := [[5; 0]; [7; 8]; [9; 0]]%Z.
Definition toy_mapper : list (list (list R)) :=
  [ [[1; 0]; [0; 0]]; [[1; 1]; [0; 0]]; [[1; 0]; [0; 0]] ]%R.

(** *** Tensor entries *)

(** Real numbers with the three IEEE special values. *)
Inductive xreal : Type :=
| Fin (r : R)
| PInf
| NInf
| NaN.

Definition xadd (a b : xreal) : xreal :=
  match a, b with
  | NaN, _ | _, NaN => NaN
  | Fin x, Fin y => Fin (x + y)
  | PInf, NInf | NInf, PInf => NaN
  | PInf, _ | _, PInf => PInf
  | NInf, _ | _, NInf => NInf
  end.

Definition xneg (a : xreal) : xreal :=
  match a with
  | Fin x => Fin (- x)
  | PInf => NInf
  | NInf => PInf
  | NaN => NaN
  end.

Definition xexp (a : xreal) : xreal :=
  match a with
  | Fin x => Fin (exp x)
  | PInf => PInf
  | NInf => Fin 0
  | NaN => NaN
  end.

Definition xlog (a : xreal) : xreal :=
  match a with
  | Fin x =>
      if Rlt_dec 0 x then Fin (ln x)
      else if Rlt_dec x 0 then NaN else NInf
  | PInf => PInf
  | NInf => NaN
  | NaN => NaN
  end.

Definition xsum (l : list xreal) : xreal := fold_right xadd (Fin 0) l.

(** [a > b] in the order that [max] and [argmax] use: [nan] is above
    everything else. *)
Definition xgt (a b : xreal) : bool :=
  match a, b with
  | _, NaN => false
  | NaN, _ => true
  | PInf, PInf => false
  | PInf, _ => true
  | _, PInf => false
  | Fin x, Fin y => if Rlt_dec y x then true else false
  | Fin _, NInf => true
  | NInf, _ => false
  end.

(** *** Tensors *)

(** A tensor: its sizes and its entries in row-major order. *)
Record tensor (A : Type) : Type := Tensor {
  shape : list nat;
  data : list A
}.
Arguments Tensor {A}.
Arguments shape {A}.
Arguments data {A}.

(** The [r] rows of [c] entries that row-major [entries] hold. *)
Definition rows_of {A : Type} (r c : nat) (entries : list A) : list (list A) :=
  map (fun i => take c (drop (i * c) entries)) (seq 0 r).

(** [t.view(-1, c)]: the row count is inferred; it cannot be when [c]
    is 0 or does not divide the number of entries. *)
Definition view_cols {A : Type} (t : tensor A) (c : nat)
    : option (list (list A)) :=
  let n := length (data t) in
  if c =? 0 then None
  else if n mod c =? 0 then Some (rows_of (n / c) c (data t))
  else None.

(** [t.view(r, -1)] *)
Definition view_rows {A : Type} (t : tensor A) (r : nat)
    : option (list (list A)) :=
  let n := length (data t) in
  if r =? 0 then None
  else if n mod r =? 0 then Some (rows_of r (n / r) (data t))
  else None.

(** [m.t()] of a matrix with [cols] columns. *)
Definition transpose (cols : nat) (m : list (list R)) : list (list R) :=
  map (fun j => column j m) (seq 0 cols).

(** [torch.log_softmax(_, dim=1)] on one row. *)
Definition log_softmax (row : list R) : list R :=
  let z := ln (Rsum (map exp row)) in
  map (fun s => (s - z)%R) row.

(** [torch.logsumexp(_, dim=1)] on one row; [-inf] on an empty one. *)
Definition logsumexp (row : list xreal) : xreal :=
  xlog (xsum (map xexp row)).

(** [input.gather(1, index)]: [out[i][j] = input[i][index[i][j]]]; an
    index outside the row is an error, and so are more index rows than
    input rows. *)
Definition gather_row {A : Type} (row : list A) (idx : list Z)
    : option (list A) :=
  mapM (fun i => if (0 <=? i)%Z then row !! Z.to_nat i else None) idx.

Definition gather {A : Type} (input : list (list A)) (index : list (list Z))
    : option (list (list A)) :=
  if length index <=? length input
  then mapM (fun '(row, idx) => gather_row row idx) (zip input index)
  else None.

(** *** The neighbor loss *)

(** Lines 86-94: the similarity matrix, before the log-softmax. *)
Definition raw_scores (batch_representations neighbor_representations : tensor R)
    : option (list (list R)) :=
  match shape batch_representations with
  | [_; _; hidden_size] =>
      q ← view_cols batch_representations hidden_size;
      nb ← view_cols neighbor_representations hidden_size;
      mat_mul q (transpose hidden_size nb)
  | _ => None
  end.

(** [get_batch_loss(batch_representations, neighbor_representations,
    targets)] *)
Definition get_batch_loss
    (batch_representations neighbor_representations : tensor R)
    (targets : tensor Z) : option xreal :=
  sim ← raw_scores batch_representations neighbor_representations;
  let scores := map (fun row => map Fin (log_softmax row)) sim in
  let dummy := replicate (length scores) [NInf] in
  let scores := zip_with app scores dummy in
  index ← view_rows targets (length scores);
  target_scores ← gather scores index;
  Some (xneg (xsum (map logsumexp target_scores))).

(** The formula of the specification, entry by entry, for a query tensor
    [Bq x Sq x H] (entries [query]), [N] neighbor tokens (entries
    [neighbor]) and [M] target slots per query token (entries
    [targets]). *)

(** Raw similarity of query token [i] and neighbor token [j]. *)
Definition similarity_at (H : nat) (query neighbor : list R) (i j : nat) : R :=
  Rsum (map (fun k => (nth (i * H + k) query 0 * nth (j * H + k) neighbor 0)%R)
            (seq 0 H)).

(** Its log-softmax over the [N] neighbor tokens. *)
Definition log_prob_at (H N : nat) (query neighbor : list R) (i j : nat) : R :=
  (similarity_at H query neighbor i j
   - ln (Rsum (map (fun j' => exp (similarity_at H query neighbor i j'))
                   (seq 0 N))))%R.

(** The score that target index [t] selects: [-inf] at the extra index
    [N]. *)
Definition extended_log_prob (H N : nat) (query neighbor : list R)
    (i : nat) (t : Z) : xreal :=
  if (t =? Z.of_nat N)%Z then NInf
  else Fin (log_prob_at H N query neighbor i (Z.to_nat t)).

(** The target indices of query token [i]. *)
Definition targets_of (M : nat) (targets : list Z) (i : nat) : list Z :=
  map (fun k => nth (i * M + k) targets 0%Z) (seq 0 M).

(** Log-sum-exp over the targets of a token, negated sum over the
    tokens. *)
Definition neighbor_loss_formula (Bq Sq H N M : nat)
    (query neighbor : list R) (targets : list Z) : xreal :=
  xneg (xsum (map (fun i =>
    xlog (xsum (map (fun t => xexp (extended_log_prob H N query neighbor i t))
                    (targets_of M targets i))))
    (seq 0 (Bq * Sq)))).

(** The probability mass that target index [t] of query token [i]
    selects: none at the extra index. *)
Definition target_mass (H N : nat) (query neighbor : list R) (i : nat)
    (t : Z) : R :=
  if (t =? Z.of_nat N)%Z then 0%R
  else exp (log_prob_at H N query neighbor i (Z.to_nat t)).

(** A batch for the examples: one query token, one neighbor token, and
    the neighbor's index in both target slots. *)
Definition one_query : tensor R := Tensor [1; 1; 1] [0%R].
Definition one_neighbor : tensor R := Tensor [1; 1; 1] [0%R].
Definition repeated_targets : tensor Z := Tensor [1; 2] [0; 0]%Z.
Definition padded_targets : tensor Z := Tensor [1; 2] [0; 1]%Z.

(** *** The neighbor decoder *)

(** The size that two sizes broadcast to. *)
Definition broadcast_dim (a b : nat) : option nat :=
  if a =? b then Some a
  else if a =? 1 then Some b
  else if b =? 1 then Some a
  else None.

(** [scores + mask] for [m x n] scores and a mask of at most two
    dimensions, by the broadcasting rule. (A mask of more dimensions
    would make the sum a tensor of more than two, which the decoder is
    not written for: the model has no result there.) *)
Definition broadcast_add (m n : nat) (scores : list (list R))
    (mask : tensor xreal) : option (list (list xreal)) :=
  '(r, c) ← match shape mask with
            | [] => Some (1, 1)
            | [c] => Some (1, c)
            | [r; c] => Some (r, c)
            | _ => None
            end;
  rows ← broadcast_dim m r;
  cols ← broadcast_dim n c;
  Some (map (fun i => map (fun j =>
          xadd (Fin (nth (if n =? 1 then 0 else j)
                         (nth (if m =? 1 then 0 else i) scores []) 0%R))
               (nth ((if r =? 1 then 0 else i) * c
                     + (if c =? 1 then 0 else j)) (data mask) NaN))
          (seq 0 cols)) (seq 0 rows)).

(** [torch.stack] of vectors: at least one, all of one length. *)
Definition torch_stack {A : Type} (ts : list (list A))
    : option (list (list A)) :=
  match ts with
  | [] => None
  | t :: rest =>
      if forallb (fun u => length u =? length t) rest then Some ts else None
  end.

(** The index of the first greatest entry. *)
Fixpoint argmax_from (best_i : nat) (best : xreal) (i : nat)
    (l : list xreal) : nat :=
  match l with
  | [] => best_i
  | x :: l' =>
      if xgt x best then argmax_from i x (S i) l'
      else argmax_from best_i best (S i) l'
  end.

Definition argmax (l : list xreal) : nat :=
  match l with
  | [] => 0
  | x :: l' => argmax_from 0 x 1 l'
  end.

(** [stacked.argmax(dim=0)]: per column, the row of the greatest entry. *)
Definition argmax_dim0 (stacked : list (list xreal)) : list nat :=
  map (fun p => argmax (map (fun row => nth p row NaN) stacked))
      (seq 0 (length (hd [] stacked))).

(** [v.view(r, c)] of a vector. *)
Definition view2 {A : Type} (v : list A) (r c : nat) : option (list (list A)) :=
  if length v =? r * c then Some (rows_of r c v) else None.

(** [get_batch_predictions(batch_representations,
    neighbor_representations, tag_to_mask)]. A [KeyError] of
    [index_to_tag] is a failed lookup. *)
Definition get_batch_predictions {Tag : Type}
    (batch_representations neighbor_representations : tensor R)
    (tag_to_mask : list (Tag * tensor xreal)) : option (list (list Tag)) :=
  match shape batch_representations with
  | [batch_size; seq_len; hidden_size] =>
      q ← view_cols batch_representations hidden_size;
      nb ← view_cols neighbor_representations hidden_size;
      sim ← mat_mul q (transpose hidden_size nb);
      let scores := map log_softmax sim in
      tag_scores ← mapM (fun '(tag, mask) =>
                           masked ← broadcast_add (length q) (length nb)
                                                  scores mask;
                           Some (map logsumexp masked))
                        tag_to_mask;
      stacked ← torch_stack tag_scores;
      preds ← view2 (argmax_dim0 stacked) batch_size seq_len;
      let index_to_tag : gmap nat Tag := map_seq 0 (map fst tag_to_mask) in
      mapM (mapM (fun index => index_to_tag !! index)) preds
  | _ => None
  end.

(** A tag-to-mask table for the examples: one neighbor token, tagged
    [PER]; no neighbor token is tagged [O]. *)
Definition sample_tag_to_mask : list (string * tensor xreal) :=
  [("O"%string, Tensor [1; 1] [NInf]);
   ("PER"%string, Tensor [1; 1] [Fin 0%R])].

(** *** Cosine normalization *)

Definition sumsq (v : list R) : R := Rsum (map (fun a => (a * a)%R) v).

(** [torch.nn.functional.normalize(_, p=2, dim=2)] on one vector of the
    hidden dimension: [v / max(||v||_2, eps)] with the default
    [eps = 1e-12]. *)
Definition normalize_eps : R := (/ 10 ^ 12)%R.

Definition normalize_vec (v : list R) : list R :=
  let denom := Rmax (sqrt (sumsq v)) normalize_eps in
  map (fun a => (a / denom)%R) v.

(** On a tensor of three dimensions (with fewer, [dim=2] is out of
    range). *)
Definition normalize (t : tensor R) : option (tensor R) :=
  match shape t with
  | [b; s; h] =>
      Some (Tensor (shape t)
              (concat (map normalize_vec (rows_of (b * s) h (data t)))))
  | _ => None
  end.

(** Lines 153-159 of [train] and 200-206 of [evaluate]. *)
Definition cosine_stage (cosine : bool)
    (batch_representations neighbor_representations : tensor R)
    : option (tensor R * tensor R) :=
  if cosine then
    b ← normalize batch_representations;
    n ← normalize neighbor_representations;
    Some (b, n)
  else Some (batch_representations, neighbor_representations).

(** Lines 153-161 of [train]: the loss of the representations. *)
Definition representations_loss (cosine : bool)
    (batch_representations neighbor_representations : tensor R)
    (targets : tensor Z) : option xreal :=
  '(b, n) ← cosine_stage cosine batch_representations neighbor_representations;
  get_batch_loss b n targets.

(** Lines 200-211 of [evaluate]: the predictions of the
    representations. *)
Definition representations_predictions {Tag : Type} (cosine : bool)
    (batch_representations neighbor_representations : tensor R)
    (tag_to_mask : list (Tag * tensor xreal)) : option (list (list Tag)) :=
  '(b, n) ← cosine_stage cosine batch_representations neighbor_representations;
  get_batch_predictions b n tag_to_mask.


(** *** The training loop *)

(** The options of [cfg] that [train] reads. *)
Record config : Type := Config {
  cosine : bool;
  no_grad_through_neighbors : bool;
  shard_batch_size : option Z;
  grad_norm : R
}.

(** A training batch, as [dataset.iter_batches] yields it:
    [(x, neighbors, x_mapper, neigbor_mapper, targets)]. *)
Record train_batch : Type := TrainBatch {
  batch_x : list (list Z);
  batch_neighbors : list (list Z);
  batch_x_mapper : list (list (list R));
  batch_neigbor_mapper : list (list (list R));
  batch_targets : tensor Z
}.

(** The collaborators of [train]: the encoder as a function of the
    parameters, autograd (the gradient that [backward] adds to the
    [.grad] buffers, for the loss divided by [x.numel()]), the optimizer
    and the optional schedule. *)
Record Trainer (Opt : Type) : Type := {
  model_at : list R -> Model;
  backward : list R -> train_batch -> list R;
  optimizer_step : Opt -> list R -> list R -> Opt * list R;
  scheduler : option (Opt -> Opt)
}.
Arguments model_at {Opt}.
Arguments backward {Opt}.
Arguments optimizer_step {Opt}.
Arguments scheduler {Opt}.

(** What the loop of [train] changes: the parameters, their [.grad]
    buffers, the optimizer (with the schedule's learning rate) and the
    running totals. *)
Record train_state (Opt : Type) : Type := TrainState {
  params : list R;
  grads : list R;
  optimizer : Opt;
  total_loss : xreal;
  total_preds : nat
}.
Arguments TrainState {Opt}.
Arguments params {Opt}.
Arguments grads {Opt}.
Arguments optimizer {Opt}.
Arguments total_loss {Opt}.
Arguments total_preds {Opt}.

(** A representation as the tensor that [get_batch_loss] takes. *)
Definition as_tensor (r : rep) : tensor R :=
  let d := rep_data r in
  Tensor [length d; length (hd [] d); length (hd [] (hd [] d))]
         (concat (concat d)).

(** [x.numel()] *)
Definition numel (x : list (list Z)) : nat := length (concat x).

(** [optimizer.zero_grad()]: every buffer is zeroed in place. *)
Definition zero_grad (g : list R) : list R := map (fun _ => 0%R) g.

(** [backward()] adds the new gradient to the buffers. *)
Definition accumulate_grad (g new : list R) : list R := zip_with Rplus g new.

(** [torch.nn.utils.clip_grad_norm_(parameters, max_norm)] *)
Definition clip_grad_norm_ (max_norm : R) (g : list R) : list R :=
  let total_norm := sqrt (sumsq g) in
  let clip_coef := (max_norm / (total_norm + / 10 ^ 6))%R in
  if Rlt_dec clip_coef 1 then map (Rmult clip_coef) g else g.

(** Lines 141-169: one iteration of the loop of [train]. (The device
    transfer of the batch changes no value; logging changes no state.) *)
Definition train_step {Opt : Type} (cfg : config) (env : Trainer Opt)
    (st : train_state Opt) (batch : train_batch) : option (train_state Opt) :=
  let g0 := zero_grad (grads st) in
  let model := model_at env (params st) in
  batch_representations ←
    get_word_representations model true
      (batch_x batch) (batch_x_mapper batch) None;
  neighbor_representations ←
    get_word_representations model (negb (no_grad_through_neighbors cfg))
      (batch_neighbors batch) (batch_neigbor_mapper batch)
      (shard_batch_size cfg);
  loss ← representations_loss (cosine cfg)
           (as_tensor batch_representations)
           (as_tensor neighbor_representations) (batch_targets batch);
  let g1 := accumulate_grad g0 (backward env (params st) batch) in
  let g2 := clip_grad_norm_ (grad_norm cfg) g1 in
  let '(opt1, params1) := optimizer_step env (optimizer st) (params st) g2 in
  let opt2 := match scheduler env with
              | Some scheduler_step => scheduler_step opt1
              | None => opt1
              end in
  Some (TrainState params1 g2 opt2
          (xadd (total_loss st) loss)
          (total_preds st + numel (batch_x batch))).

(** The loop over the batches of an epoch. *)
Fixpoint train_loop {Opt : Type} (cfg : config) (env : Trainer Opt)
    (st : train_state Opt) (batches : list train_batch)
    : option (train_state Opt) :=
  match batches with
  | [] => Some st
  | batch :: rest =>
      st' ← train_step cfg env st batch;
      train_loop cfg env st' rest
  end.

(** [total_loss / total_preds] *)
Definition xdiv_nat (a : xreal) (n : nat) : option xreal :=
  if n =? 0 then None
  else Some match a with
            | Fin r => Fin (r / INR n)
            | other => other
            end.

(** [train]: the totals start at 0; the mean loss per token is
    returned with the state that the epoch leaves. *)
Definition train {Opt : Type} (cfg : config) (env : Trainer Opt)
    (params0 grads0 : list R) (opt0 : Opt) (batches : list train_batch)
    : option (train_state Opt * xreal) :=
  st ← train_loop cfg env (TrainState params0 grads0 opt0 (Fin 0%R) 0) batches;
  mean ← xdiv_nat (total_loss st) (total_preds st);
  Some (st, mean).

(** A trainer for the examples: the toy encoder whatever the
    parameters, a gradient of ones, and plain gradient descent. *)
Definition toy_trainer : Trainer unit :=
  {| model_at := fun _ => toy_model;
     backward := fun theta _ => map (fun _ => 1%R) theta;
     optimizer_step := fun o theta g => (o, zip_with Rminus theta g);
     scheduler := None |}.

Definition toy_config : config := Config false false (Some 2%Z) 1%R.

Definition toy_batch : train_batch :=
  TrainBatch [[5; 0]]%Z [[7; 8]]%Z
             [[[1; 0]; [0; 0]]]%R [[[1; 1]; [0; 0]]]%R
             (Tensor [2; 1] [0; 2]%Z).

Definition toy_state : train_state unit :=
  TrainState [0; 0]%R [4; 2]%R () (Fin 0%R) 0.

(** A state whose [.grad] buffers hold [stale] instead. *)
Definition with_grads {Opt : Type} (stale : list R) (st : train_state Opt)
    : train_state Opt :=
  TrainState (params st) stale (optimizer st) (total_loss st) (total_preds st).

(** A scorer for the examples: a batch's predictions are given as the
    list of whether each is right. *)
Definition toy_scorer : Scorer (list bool) unit :=
  {| accuracy_eval := fun preds _ =>
       (length preds, length (List.filter (fun c => c) preds));
     span_eval := fun preds _ =>
       (length preds, S (length preds),
        length (List.filter (fun c => c) preds)) |}.

Definition toy_decoded : list (list bool * unit) :=
  [([true; false], ()); ([true], ())].

(** A scorer counts no more correct predictions in a batch than
    predictions and than gold items. *)
(** Two batches in which no prediction is correct. *)
Definition missed_decoded : list (list bool * unit) :=
  [([false; false], ()); ([false], ())].

Definition sane_counts (counts : list (nat * nat * nat)) : Prop :=
  Forall (fun '(batch_preds, batch_golds, batch_corects) =>
            batch_corects <= batch_preds /\ batch_corects <= batch_golds)
         counts.

(** *** Stores: well-formedness, growth, and what a transfer yields *)

(** Nothing is allocated at or above the next free reference. *)
Definition heap_wf (h : heap) : Prop :=
  forall a, next h <= a -> objs h !! a = None.

(** [h'] is [h] with more objects: every object of [h] is still there,
    unchanged. *)
Definition heap_le (h h' : heap) : Prop :=
  next h <= next h' /\ objs h ⊆ objs h'.

(** [o'] is [o] relocated to [dev]: the same kind of container with the
    same keys, class and number of entries, or the same opaque object,
    or a tensor with the same storage on [dev]. *)
Definition same_container (dev : device) (o o' : pyobj) : Prop :=
  match o, o' with
  | PyTensor _ storage, PyTensor dev' storage' =>
      dev' = dev /\ storage' = storage
  | PyDict items, PyDict items' => map fst items' = map fst items
  | PyList elems, PyList elems' => length elems' = length elems
  | PyNamedTuple cls elems, PyNamedTuple cls' elems' =>
      cls' = cls /\ length elems' = length elems
  | PyTuple elems, PyTuple elems' => length elems' = length elems
  | Opaque repr, Opaque repr' => repr' = repr
  | _, _ => False
  end.

Definition is_container (o : pyobj) : bool :=
  match o with
  | PyDict _ | PyList _ | PyNamedTuple _ _ | PyTuple _ => true
  | PyTensor _ _ | Opaque _ => false
  end.

(** Down to [depth] levels of dict values, list entries and tuple
    entries below [r], every tensor is on [dev]. *)
Fixpoint on_device (depth : nat) (h : heap) (r : ref) (dev : device) : Prop :=
  match depth with
  | O => True
  | S depth' =>
      match objs h !! r with
      | None => False
      | Some (PyTensor dev' _) => dev' = dev
      | Some (PyDict items) =>
          Forall (fun kv => on_device depth' h kv.2 dev) items
      | Some (PyList elems) | Some (PyNamedTuple _ elems)
      | Some (PyTuple elems) =>
          Forall (fun e => on_device depth' h e dev) elems
      | Some (Opaque _) => True
      end
  end.

(** The references an object holds: what [move_to_device] recurses
    into. *)
Definition children (o : pyobj) : list ref :=
  match o with
  | PyDict items => map snd items
  | PyList elems | PyNamedTuple _ elems | PyTuple elems => elems
  | PyTensor _ _ | Opaque _ => []
  end.

(** The structure below [r] is nested at most [n] deep (a tensor or a
    container of no entry counts 1) and reaches allocated objects
    only. *)
Fixpoint finite_depth (n : nat) (h : heap) (r : ref) : Prop :=
  match n with
  | O => False
  | S n' =>
      match objs h !! r with
      | None => False
      | Some o => Forall (finite_depth n' h) (children o)
      end
  end.

(** A store for the examples: the list [[(t, ()), (), t]] of a pair,
    the empty tuple and a tensor [t] on the host. *)
Definition tuple_heap : heap :=
  Heap (<[3 := PyList [2; 1; 0]]>
        (<[2 := PyTuple [0; 1]]>
         (<[1 := PyTuple []]>
          (<[0 := PyTensor Cpu [2; 7]%Z]> ∅)))) 4.

(** A store for the examples: a list that contains itself. *)
Definition cyclic_heap : heap :=
  Heap (<[0 := PyList [0]]> ∅) 1.

Definition overflowing_targets : tensor Z := Tensor [1; 2] [0; 2]%Z.

(** The score of a tag for query token [p]: the log-sum-exp, over the
    [N] neighbor tokens, of the token's log-softmax similarity plus the
    tag's mask (a [B*S x N] tensor, entries [mask]). *)
Definition tag_score (H N : nat) (query neighbor : list R)
    (mask : list xreal) (p : nat) : xreal :=
  logsumexp (map (fun j =>
               xadd (Fin (log_prob_at H N query neighbor p j))
                    (nth (p * N + j) mask NaN))
             (seq 0 N)).

(** The [s x s] identity mapping: word slot [i] is sub-word piece [i]. *)
Definition identity_matrix (s : nat) : list (list R) :=
  map (fun i => map (fun k => if i =? k then 1%R else 0%R) (seq 0 s))
      (seq 0 s).

(** A zero row of the mapping gives a zero vector. *)
Definition zero_to_zero (mrow vec : list R) : Prop :=
  Forall (fun c => c = 0%R) mrow -> Forall (fun v => v = 0%R) vec.

(** *** [main]: the optimizer's parameter groups and the epoch loop *)

(** Python's [sub in s] on strings: [sub] occurs in [s] as a contiguous
    substring. *)
Fixpoint contains (sub s : string) : bool :=
  String.prefix sub s
  || match s with
     | EmptyString => false
     | String _ s' => contains sub s'
     end.

Definition no_decay : list string :=
  ["bias"; "LayerNorm.bias"; "LayerNorm.weight"]%string.

(** [any(nd in n for nd in no_decay)] *)
Definition any_no_decay (n : string) : bool :=
  existsb (fun nd => contains nd n) no_decay.

Record param_group (P : Type) : Type := ParamGroup {
  group_params : list P;
  weight_decay : Q
}.
Arguments ParamGroup {P} _ _.
Arguments group_params {P} _.
Arguments weight_decay {P} _.

(** The list handed to [AdamW]: two comprehensions over
    [model.named_parameters()]. *)
Definition parameter_groups {P : Type} (named_parameters : list (string * P))
  : list (param_group P) :=
  [ ParamGroup
      (map snd (List.filter (fun np => negb (any_no_decay (fst np)))
                            named_parameters))
      (1 # 100);
    ParamGroup
      (map snd (List.filter (fun np => any_no_decay (fst np))
                            named_parameters))
      0 ].

(** The state of the epoch loop of [main]: [best_f1] ([None] stands for
    [float("-inf")]) and the contents of the file [cfg.save] ([None]:
    not written). *)
Record best_state (W : Type) : Type := BestState {
  best_f1 : option Q;
  saved : option W
}.
Arguments BestState {W} _ _.
Arguments best_f1 {W} _.
Arguments saved {W} _.

(** [f1 > best_f1] *)
Definition improves (f1 : Q) (best : option Q) : bool :=
  match best with
  | None => true
  | Some b => negb (Qle_bool f1 b)
  end.

(** One pass of the loop body after [train] and [evaluate] returned the
    weights [w] and the score [f1]; [save] is [cfg.save is not None]. *)
Definition epoch_step {W : Type} (save : bool) (st : best_state W)
    (epoch : W * Q) : best_state W :=
  if improves (snd epoch) (best_f1 st)
  then BestState (Some (snd epoch))
                 (if save then Some (fst epoch) else saved st)
  else st.

Definition epoch_loop {W : Type} (save : bool) (epochs : list (W * Q))
  : best_state W :=
  fold_left (epoch_step save) epochs (BestState None None).

Definition toy_named_parameters : list (string * nat) :=
  [ ("bert.embeddings.word_embeddings.weight", 0);
    ("bert.embeddings.LayerNorm.weight", 1);
    ("bert.embeddings.LayerNorm.bias", 2);
    ("bert.encoder.layer.0.attention.self.query.weight", 3);
    ("bert.encoder.layer.0.attention.self.query.bias", 4) ]%string.

Definition toy_epochs : list (string * Q) :=
  [ ("w0", 1 # 2); ("w1", 3 # 4); ("w2", 3 # 4); ("w3", 1 # 4) ]%string.

(** *** [embedding_fun]: the sentence embedding used to find neighbors *)



(** The encoder returned one [S x H] matrix per sentence of [x]; with any
    other shape the product with the mask raises (or broadcasts, which no
    encoder of the program does). *)
Definition encoder_shape (x : list (list Z)) (reps : list (list (list R)))
  : Prop :=
  Forall2 (fun ids rows =>
             length rows = length ids
             /\ Forall (fun row => length row = length (hd [] (hd [] reps)))
                       rows)
          x reps.

#[global] Instance encoder_shape_dec x reps : Decision (encoder_shape x reps).
Proof. unfold encoder_shape. apply _. Defined.



(** *** The cosine stage in binary32

    The tensors of the program hold binary32 numbers. The definitions
    below redo the normalization and the similarity product of the cosine
    stage on binary32 values ([spec_float] at precision 24, exponent
    bound 128), every operation rounded to nearest even and sums taken
    from left to right, on the rows that [view(-1, hidden_size)] gives.
    (The library fixes no order for a sum; on the hidden vectors of two
    entries used below every order gives the same value.) *)












(** ** Part II. Properties *)

(** *** Device transfer *)

Lemma device_eqb_eq d1 d2 : device_eqb d1 d2 = true <-> d1 = d2.
Proof.
  destruct d1, d2; simpl; split; try congruence; try done.
  - intros H%Z.eqb_eq. by subst.
  - intros [= ->]. apply Z.eqb_refl.
Qed.

(** C6. With the host device as target, [move_to_device] returns the very
    reference it was given and leaves the store as it was (nothing is
    allocated, nothing is copied), whatever the reference points to. *)
Theorem move_to_device_cpu_identity (fuel : nat) (h : heap) (obj : ref) :
  move_to_device (S fuel) h obj Cpu = Some (h, obj).
Proof. reflexivity. Qed.

(** C7, as the source has it. An object of none of the shapes that
    [move_to_device] knows is returned as it is, with no error, whatever
    the target device. *)
Theorem move_to_device_opaque_passthrough (fuel : nat) (h : heap) (obj : ref)
    (cuda_device : device) (repr : string) :
  objs h !! obj = Some (Opaque repr) ->
  move_to_device (S fuel) h obj cuda_device = Some (h, obj).
Proof.
  intros Hobj. simpl. rewrite Hobj.
  by destruct (device_eqb cuda_device Cpu).
Qed.

Lemma move_to_device_opaque_passthrough_witness :
  objs sample_heap !! 1 = Some (Opaque "set") /\
  move_to_device 1 sample_heap 1 (Cuda 0) = Some (sample_heap, 1).
Proof.
  split; [reflexivity |].
  apply (move_to_device_opaque_passthrough 0 sample_heap 1 (Cuda 0) "set").
  reflexivity.
Defined.

(** C7, as the specification states it, fails: moving a set to an
    accelerator, alone or inside a list, raises nothing. The set comes back by reference and
    the list is rebuilt around it. *)
Lemma move_to_device_unsupported_no_error :
  objs sample_heap !! 1 = Some (Opaque "set") /\
  Cuda 0 <> Cpu /\
  move_to_device 1 sample_heap 1 (Cuda 0) = Some (sample_heap, 1) /\
  exists h',
    move_to_device 2 sample_heap 2 (Cuda 0) = Some (h', 4) /\
    objs h' !! 4 = Some (PyList [3; 1]) /\
    objs h' !! 3 = Some (PyTensor (Cuda 0) [3; 1; 4]%Z) /\
    objs h' !! 1 = Some (Opaque "set").
Proof.
  split; [reflexivity |]. split; [discriminate |]. split; [reflexivity |].
  eexists. split; [reflexivity |]. repeat split; reflexivity.
Qed.

(** *** Micro-averaged metrics *)

Lemma accumulate_from (counts : list (nat * nat * nat)) (a b c : Z) :
  fold_left
    (fun '(total_preds, total_golds, total_corrects)
         '(batch_preds, batch_golds, batch_corects) =>
       ((total_preds + Z.of_nat batch_preds)%Z,
        (total_golds + Z.of_nat batch_golds)%Z,
        (total_corrects + Z.of_nat batch_corects)%Z))
    counts (a, b, c)
  = ((a + Z.of_nat (pooled_preds counts))%Z,
     (b + Z.of_nat (pooled_golds counts))%Z,
     (c + Z.of_nat (pooled_corrects counts))%Z).
Proof.
  revert a b c. induction counts as [| [[bp bg] bc] counts IH]; intros a b c.
  - unfold pooled_preds, pooled_golds, pooled_corrects. simpl.
    f_equal; [f_equal |]; lia.
  - simpl fold_left. rewrite IH.
    unfold pooled_preds, pooled_golds, pooled_corrects. simpl.
    f_equal; [f_equal |]; lia.
Qed.

Lemma accumulate_pooled (counts : list (nat * nat * nat)) :
  accumulate counts
  = (Z.of_nat (pooled_preds counts), Z.of_nat (pooled_golds counts),
     Z.of_nat (pooled_corrects counts)).
Proof. unfold accumulate. by rewrite accumulate_from. Qed.

Lemma micro_ratio_nonneg (total count : Z) :
  (0 <= count)%Z ->
  (0 <= (if (0 <? total)%Z then inject_Z count / inject_Z total else 0))%Q.
Proof.
  intros Hc. destruct (Z.ltb_spec 0 total) as [Hpos | _]; [| apply Qle_refl].
  apply Qle_shift_div_l.
  - change 0%Q with (inject_Z 0). by rewrite <- Zlt_Qlt.
  - rewrite Qmult_0_l. change 0%Q with (inject_Z 0). by rewrite <- Zle_Qle.
Qed.

Lemma Qsum_zero_iff (p r : Q) :
  (0 <= p)%Q -> (0 <= r)%Q -> (p + r == 0)%Q <-> (p == 0)%Q /\ (r == 0)%Q.
Proof.
  intros Hp Hr. split.
  - intros Hs. split; apply Qle_antisym; try done.
    + rewrite <- Hs. rewrite <- (Qplus_0_r p) at 1.
      by apply Qplus_le_r.
    + rewrite <- Hs. rewrite <- (Qplus_0_l r) at 1.
      by apply Qplus_le_l.
  - intros [-> ->]. reflexivity.
Qed.

(** C8. Micro precision is correct/predicted when the pooled predicted
    count is positive and 0 otherwise, micro recall is correct/gold when
    the pooled gold count is positive and 0 otherwise, and [evaluate]
    raises (the division of the F1 line has a zero divisor) exactly when
    both are 0; otherwise it returns them with F1 = 2pr/(p+r). *)
Theorem evaluate_raises_iff_zero_metrics {Pred Gold : Type}
    (sc : Scorer Pred Gold) (eval_accuracy : bool)
    (decoded : list (Pred * Gold)) :
  let counts := all_counts sc eval_accuracy decoded in
  let P := Z.of_nat (pooled_preds counts) in
  let G := Z.of_nat (pooled_golds counts) in
  let C := Z.of_nat (pooled_corrects counts) in
  let p := (if (0 <? P)%Z then inject_Z C / inject_Z P else 0)%Q in
  let r := (if (0 <? G)%Z then inject_Z C / inject_Z G else 0)%Q in
  micro_prec P C = p /\ micro_rec G C = r /\
  (evaluate sc eval_accuracy decoded = None <-> (p == 0)%Q /\ (r == 0)%Q) /\
  (evaluate sc eval_accuracy decoded <> None ->
   evaluate sc eval_accuracy decoded
   = Some (p, r, (2 * p * r / (p + r))%Q)).
Proof.
  intros counts P G C p r.
  assert (Hp : (0 <= p)%Q) by (apply micro_ratio_nonneg; lia).
  assert (Hr : (0 <= r)%Q) by (apply micro_ratio_nonneg; lia).
  split; [reflexivity |]. split; [reflexivity |].
  unfold evaluate. fold counts. rewrite accumulate_pooled.
  unfold micro_metrics, py_div, micro_prec, micro_rec.
  fold P G C. fold p r.
  destruct (Qeq_bool (p + r) 0) eqn:Hz; simpl.
  - apply Qeq_bool_iff in Hz. apply Qsum_zero_iff in Hz; [| done | done].
    split; [done |]. intros Hne. by destruct Hne.
  - apply Qeq_bool_neq in Hz. split; [| done].
    split; [discriminate |]. intros Hpr. destruct Hz.
    by apply Qsum_zero_iff.
Qed.

(** *** The representation extractor *)

Section Sharding.

Context {A : Type}.
Implicit Types (t : list A) (k fuel : nat).

Lemma split_chunks_concat fuel k t :
  0 < k -> length t <= fuel -> concat (split_chunks fuel k t) = t.
Proof.
  intros Hk. revert t. induction fuel as [| fuel IH]; intros t Hlen.
  - destruct t; [done | simpl in Hlen; lia].
  - destruct t as [| a t]; [done |].
    cbn [split_chunks concat]. rewrite IH.
    + apply take_drop.
    + rewrite length_drop. simpl in *. lia.
Qed.

Lemma split_chunks_bounded fuel k t :
  Forall (fun c => length c <= k) (split_chunks fuel k t).
Proof.
  revert t. induction fuel as [| fuel IH]; intros t; [constructor |].
  destruct t as [| a t]; [constructor |].
  cbn [split_chunks]. constructor; [| apply IH].
  rewrite length_take. lia.
Qed.

Lemma split_chunks_nonempty fuel k t :
  t <> [] -> 0 < fuel -> split_chunks fuel k t <> [].
Proof. intros Ht Hf. destruct fuel; [lia |]. by destruct t. Qed.

End Sharding.

Lemma split_chunks_same_lengths {A B : Type} (fuel k : nat)
    (t : list A) (u : list B) :
  length t = length u ->
  map length (split_chunks fuel k t) = map length (split_chunks fuel k u).
Proof.
  revert t u. induction fuel as [| fuel IH]; intros t u Hlen; [done |].
  destruct t as [| a t], u as [| b u]; try done.
  cbn [split_chunks map]. f_equal.
  - rewrite !length_take. by rewrite Hlen.
  - apply IH. rewrite !length_drop. by rewrite Hlen.
Qed.

Lemma mapM_app {A B : Type} (f : A -> option B) (l1 l2 : list A) :
  mapM f (l1 ++ l2)
  = (k1 ← mapM f l1; k2 ← mapM f l2; Some (k1 ++ k2)).
Proof.
  induction l1 as [| a l1 IH]; simpl.
  - by destruct (mapM f l2).
  - destruct (f a); simpl; [| done]. rewrite IH.
    destruct (mapM f l1); simpl; [| done]. by destruct (mapM f l2).
Qed.

Lemma bmm_app (m1 m2 b1 b2 : list (list (list R))) :
  length m1 = length b1 ->
  bmm (m1 ++ m2) (b1 ++ b2)
  = (r1 ← bmm m1 b1; r2 ← bmm m2 b2; Some (r1 ++ r2)).
Proof.
  intros Hlen. unfold bmm. rewrite !length_app, Hlen, Nat.eqb_refl.
  rewrite zip_with_app by done. rewrite mapM_app.
  destruct (Nat.eqb_spec (length m2) (length b2)) as [Heq | Hne].
  - by replace (length b1 + length m2 =? length b1 + length b2) with true
      by (symmetry; apply Nat.eqb_eq; lia).
  - replace (length b1 + length m2 =? length b1 + length b2) with false
      by (symmetry; apply Nat.eqb_neq; lia).
    by destruct (mapM _ (zip m1 b1)).
Qed.

Section Extractor.

Variables (model : Model) (grad_enabled : bool).

(** The tensor that the unsharded branch computes. *)
Let whole_data (x : list (list Z)) (mapper : list (list (list R))) :=
  bmm mapper (bert model x (attention_mask x)).

Let flag := grad_enabled && trainable model.

Lemma get_word_representations_whole x mapper :
  get_word_representations model grad_enabled x mapper None
  = (results ← whole_data x mapper; Some (Rep results flag)).
Proof. reflexivity. Qed.

Lemma get_word_representations_sharded x mapper k :
  get_word_representations model grad_enabled x mapper (Some k)
  = (xsplits ← torch_split x k;
     mapper_splits ← torch_split mapper k;
     parts ← mapM (fun '(xsplit, mapper_split) =>
                     get_word_representations model grad_enabled
                       xsplit mapper_split None)
                  (zip xsplits mapper_splits);
     torch_cat parts).
Proof. reflexivity. Qed.

Lemma parts_flag (pairs : list (list (list Z) * list (list (list R))))
    (parts : list rep) :
  mapM (fun '(xsplit, mapper_split) =>
          get_word_representations model grad_enabled xsplit mapper_split None)
       pairs = Some parts ->
  Forall (fun p => requires_grad p = flag) parts.
Proof.
  intros H%mapM_Some_1. induction H as [| [a b] p pairs parts Hp _ IH];
    constructor; [| done].
  rewrite get_word_representations_whole in Hp.
  destruct (whole_data a b); simplify_eq/=. done.
Qed.

Lemma existsb_flag (parts : list rep) :
  parts <> [] -> Forall (fun p => requires_grad p = flag) parts ->
  existsb requires_grad parts = flag.
Proof.
  intros Hne Hall. induction Hall as [| p parts Hp Hall IH]; [done |].
  simpl. rewrite Hp. destruct parts as [| q parts].
  - simpl. apply orb_false_r.
  - rewrite IH by done. apply orb_diag.
Qed.

Hypothesis Hsent : sentencewise model.

Lemma whole_data_app x1 x2 mapper1 mapper2 :
  length x1 = length mapper1 ->
  whole_data (x1 ++ x2) (mapper1 ++ mapper2)
  = (r1 ← whole_data x1 mapper1; r2 ← whole_data x2 mapper2; Some (r1 ++ r2)).
Proof.
  intros Hlen. destruct Hsent as [enc Henc]. unfold whole_data.
  rewrite !Henc. unfold attention_mask. rewrite map_app.
  rewrite zip_with_app by by rewrite length_map.
  apply bmm_app. rewrite length_zip_with, length_map. lia.
Qed.

Lemma whole_data_nil : whole_data [] [] = Some [].
Proof. destruct Hsent as [enc Henc]. unfold whole_data. by rewrite Henc. Qed.

Lemma sharded_data fuel k x mapper :
  0 < k -> length x = length mapper -> length x <= fuel ->
  (parts ← mapM (fun '(xsplit, mapper_split) =>
                   get_word_representations model grad_enabled
                     xsplit mapper_split None)
                (zip (split_chunks fuel k x) (split_chunks fuel k mapper));
   Some (concat (map rep_data parts)))
  = whole_data x mapper.
Proof.
  intros Hk. revert x mapper.
  induction fuel as [| fuel IH]; intros x mapper Hlen Hfuel.
  - destruct x; [| simpl in Hfuel; lia]. destruct mapper; [| done].
    by rewrite whole_data_nil.
  - destruct x as [| x0 x]; destruct mapper as [| m0 mapper]; try done.
    { by rewrite whole_data_nil. }
    replace (whole_data (x0 :: x) (m0 :: mapper))
      with (whole_data (take k (x0 :: x) ++ drop k (x0 :: x))
                       (take k (m0 :: mapper) ++ drop k (m0 :: mapper)))
      by (by rewrite !take_drop).
    rewrite whole_data_app by (rewrite !length_take; lia).
    cbn [split_chunks zip_with mapM].
    rewrite <- (IH (drop k (x0 :: x)) (drop k (m0 :: mapper)));
      [| rewrite !length_drop; lia | rewrite length_drop; simpl in *; lia].
    rewrite get_word_representations_whole.
    destruct (whole_data (take k (x0 :: x)) (take k (m0 :: mapper)));
      simpl; [| done].
    by destruct (mapM _ _).
Qed.

End Extractor.

Lemma torch_split_chunks {A : Type} (t : list A) (k : Z) :
  (1 <= k)%Z -> t <> [] ->
  torch_split t k = Some (split_chunks (length t) (Z.to_nat k) t).
Proof.
  intros Hk Ht. unfold torch_split.
  destruct (Z.ltb_spec k 0); [lia |]. destruct t; [done |].
  destruct (Z.eqb_spec k 0); [lia | done].
Qed.

(** C4. For an encoder that treats the sentences of a batch one by one,
    and token ids and mapping of one batch size, the extractor with a
    shard size K >= 1 returns what it returns with no shard size: the
    same tensor (or the same failure), with the same gradient tracking,
    whether or not K divides the batch size. *)
Theorem sharding_equivalence (model : Model) (grad_enabled : bool)
    (x : list (list Z)) (mapper : list (list (list R))) (k : Z) :
  sentencewise model -> (1 <= k)%Z -> length x = length mapper ->
  get_word_representations model grad_enabled x mapper (Some k)
  = get_word_representations model grad_enabled x mapper None.
Proof.
  intros Hsent Hk Hlen.
  rewrite get_word_representations_sharded.
  destruct x as [| x0 x].
  { destruct mapper; [| done]. unfold torch_split.
    destruct (Z.ltb_spec k 0); [lia |]. simpl.
    destruct (bmm [] (bert model [] [])) as [data |]; simpl; [| done].
    unfold torch_cat. simpl. by rewrite app_nil_r, orb_false_r. }
  destruct mapper as [| m0 mapper]; [done |].
  rewrite !torch_split_chunks by done. cbn [mbind option_bind].
  rewrite <- Hlen.
  pose proof (sharded_data model grad_enabled Hsent (length (x0 :: x))
                (Z.to_nat k) (x0 :: x) (m0 :: mapper)) as Hdata.
  rewrite get_word_representations_whole.
  rewrite <- Hdata by (done || lia). clear Hdata.
  destruct (mapM _ _) as [parts |] eqn:Hparts; simpl; [| done].
  assert (parts <> []) as Hne.
  { apply length_mapM in Hparts. intros ->. by simpl in Hparts. }
  unfold torch_cat. destruct parts as [| p parts]; [done |].
  f_equal. f_equal. apply existsb_flag; [done |].
  by eapply parts_flag.
Qed.

Lemma toy_model_sentencewise : sentencewise toy_model.
Proof.
  exists (fun ids mask => zip_with (fun id m => [IZR id; IZR m]) ids mask).
  reflexivity.
Qed.

Lemma sharding_equivalence_witness :
  sentencewise toy_model /\ (1 <= 2)%Z /\ length toy_x = length toy_mapper /\
  get_word_representations toy_model true toy_x toy_mapper (Some 2%Z)
  = get_word_representations toy_model true toy_x toy_mapper None.
Proof.
  split; [exact toy_model_sentencewise |].
  split; [lia |]. split; [reflexivity |].
  apply (sharding_equivalence toy_model true toy_x toy_mapper 2).
  - exact toy_model_sentencewise.
  - lia.
  - reflexivity.
Defined.

(** C5, as the source has it. With a shard size K and 1 <= K < B, token
    ids and mapping are both split along the batch axis into the same
    consecutive chunks of at most K sentences; the call returns a
    result exactly when every chunk, run through the unsharded branch,
    does, and the result is the chunks' results concatenated in the
    order of the batch. Nothing is detached: the result is tracked by
    autograd under the same condition as an unsharded result (gradient
    mode on and trainable encoder). *)
Theorem sharded_split_process_concat (model : Model) (grad_enabled : bool)
    (x : list (list Z)) (mapper : list (list (list R))) (k : Z) :
  (1 <= k)%Z -> (k < Z.of_nat (length x))%Z -> length x = length mapper ->
  exists xsplits mapper_splits,
    torch_split x k = Some xsplits /\
    torch_split mapper k = Some mapper_splits /\
    concat xsplits = x /\ concat mapper_splits = mapper /\
    Forall (fun c => length c <= Z.to_nat k) xsplits /\
    Forall (fun c => length c <= Z.to_nat k) mapper_splits /\
    map length xsplits = map length mapper_splits /\
    forall r,
      get_word_representations model grad_enabled x mapper (Some k) = Some r
      <->
      exists parts,
        Forall2 (fun '(xsplit, mapper_split) part =>
                   get_word_representations model grad_enabled
                     xsplit mapper_split None = Some part)
                (zip xsplits mapper_splits) parts /\
        rep_data r = concat (map rep_data parts) /\
        requires_grad r = grad_enabled && trainable model.
Proof.
  intros Hk HkB Hlen.
  assert (x <> []) as Hx by (intros ->; simpl in HkB; lia).
  assert (mapper <> []) as Hm by (intros ->; destruct x; done).
  exists (split_chunks (length x) (Z.to_nat k) x),
         (split_chunks (length mapper) (Z.to_nat k) mapper).
  split; [by apply torch_split_chunks |].
  split; [by apply torch_split_chunks |].
  split; [apply split_chunks_concat; lia |].
  split; [apply split_chunks_concat; lia |].
  split; [apply split_chunks_bounded |].
  split; [apply split_chunks_bounded |].
  split; [rewrite <- Hlen; by apply split_chunks_same_lengths |].
  intros r. rewrite get_word_representations_sharded.
  rewrite !torch_split_chunks by done. cbn [mbind option_bind].
  set (pairs := zip _ _).
  assert (pairs <> []) as Hpairs.
  { subst pairs. rewrite <- Hlen. by destruct x, mapper. }
  split.
  - destruct (mapM _ pairs) as [parts |] eqn:Hparts; simpl; [| done].
    intros Hcat. exists parts.
    split.
    { eapply Forall2_impl; [by apply mapM_Some_1 |]. by intros [a b] p. }
    assert (parts <> []) as Hne.
    { apply length_mapM in Hparts. intros ->. by destruct pairs. }
    unfold torch_cat in Hcat. destruct parts as [| p parts]; [done |].
    injection Hcat as <-. split; [done |].
    change (existsb requires_grad (p :: parts)
            = grad_enabled && trainable model).
    apply existsb_flag; [done |]. by eapply parts_flag.
  - intros (parts & Hall & Hdata & Hflag).
    assert (mapM (fun '(xsplit, mapper_split) =>
                    get_word_representations model grad_enabled
                      xsplit mapper_split None) pairs = Some parts) as Hparts.
    { apply mapM_Some_2. eapply Forall2_impl; [exact Hall |].
      by intros [a b] p. }
    rewrite Hparts. simpl.
    assert (parts <> []) as Hne.
    { apply length_mapM in Hparts. intros ->. by destruct pairs. }
    unfold torch_cat. destruct parts as [| p parts]; [done |].
    f_equal. destruct r as [data rg]. simpl in Hdata, Hflag. subst data rg.
    f_equal. apply existsb_flag; [done |]. by eapply parts_flag.
Qed.

Lemma sharded_split_process_concat_witness :
  (1 <= 2)%Z /\ (2 < Z.of_nat (length toy_x))%Z /\
  length toy_x = length toy_mapper /\
  exists xsplits mapper_splits,
    torch_split toy_x 2 = Some xsplits /\
    torch_split toy_mapper 2 = Some mapper_splits /\
    concat xsplits = toy_x /\ concat mapper_splits = toy_mapper /\
    Forall (fun c => length c <= Z.to_nat 2) xsplits /\
    Forall (fun c => length c <= Z.to_nat 2) mapper_splits /\
    map length xsplits = map length mapper_splits /\
    forall r,
      get_word_representations toy_model true toy_x toy_mapper (Some 2%Z)
      = Some r
      <->
      exists parts,
        Forall2 (fun '(xsplit, mapper_split) part =>
                   get_word_representations toy_model true
                     xsplit mapper_split None = Some part)
                (zip xsplits mapper_splits) parts /\
        rep_data r = concat (map rep_data parts) /\
        requires_grad r = true && trainable toy_model.
Proof.
  split; [lia |]. split; [simpl; lia |]. split; [reflexivity |].
  apply (sharded_split_process_concat toy_model true toy_x toy_mapper 2).
  - lia.
  - simpl. lia.
  - reflexivity.
Defined.

(** C5, as the specification states it, fails: a sharded call under
    gradient mode returns a tensor that autograd tracks through every
    chunk. *)
Lemma sharded_output_not_detached :
  (1 <= 2)%Z /\ (2 < Z.of_nat (length toy_x))%Z /\
  exists r,
    get_word_representations toy_model true toy_x toy_mapper (Some 2%Z)
    = Some r /\
    length (rep_data r) = 3 /\
    requires_grad r = true.
Proof.
  split; [lia |]. split; [simpl; lia |].
  eexists. split; [reflexivity |]. split; reflexivity.
Qed.

(** *** Lists read by index *)

Section ByIndex.

Context {A : Type}.

Lemma map_nth_seq (d : A) (l : list A) :
  map (fun k => nth k l d) (seq 0 (length l)) = l.
Proof.
  induction l as [| a l IH]; [done |].
  cbn [length seq map nth]. f_equal.
  rewrite <- seq_shift, map_map. exact IH.
Qed.

Lemma map_via_nth {B : Type} (d : A) (f : A -> B) (l : list A) :
  map f l = map (fun k => f (nth k l d)) (seq 0 (length l)).
Proof. by rewrite <- (map_map (fun k => nth k l d) f), map_nth_seq. Qed.

Lemma map_seq_ext {B : Type} (f g : nat -> B) (start len : nat) :
  (forall i, start <= i < start + len -> f i = g i) ->
  map f (seq start len) = map g (seq start len).
Proof.
  intros H. apply map_ext_in. intros i Hi%in_seq. by apply H.
Qed.

Lemma nth_take_drop (d : A) (l : list A) (c off k : nat) :
  k < c -> nth k (take c (drop off l)) d = nth (off + k) l d.
Proof.
  intros Hk. rewrite !nth_lookup.
  by rewrite lookup_take_lt, lookup_drop by done.
Qed.

Lemma length_take_drop (l : list A) (c off : nat) :
  off + c <= length l -> length (take c (drop off l)) = c.
Proof. intros H. rewrite length_take, length_drop. lia. Qed.

Lemma length_rows_of (r c : nat) (entries : list A) :
  length (rows_of r c entries) = r.
Proof. unfold rows_of. by rewrite length_map, length_seq. Qed.

Lemma rows_of_lengths (r c : nat) (entries : list A) :
  r * c <= length entries ->
  Forall (fun row => length row = c) (rows_of r c entries).
Proof.
  intros Hlen. unfold rows_of. apply Forall_forall.
  intros row (i & <- & Hi%in_seq)%list_elem_of_In%in_map_iff.
  apply length_take_drop. nia.
Qed.

Lemma rows_of_by_index (d : A) (r c : nat) (entries : list A) :
  r * c <= length entries ->
  rows_of r c entries
  = map (fun i => map (fun k => nth (i * c + k) entries d) (seq 0 c)) (seq 0 r).
Proof.
  intros Hlen. unfold rows_of. apply map_seq_ext. intros i Hi.
  rewrite <- (map_nth_seq d (take c (drop (i * c) entries))).
  rewrite length_take_drop by nia.
  apply map_seq_ext. intros k Hk. apply nth_take_drop. lia.
Qed.


Lemma mapM_map_Some {B : Type} (f : A -> option B) (g : A -> B) (l : list A) :
  (forall a, In a l -> f a = Some (g a)) -> mapM f l = Some (map g l).
Proof.
  intros H. apply mapM_Some_2. induction l as [| a l IH]; [constructor |].
  cbn [map]. constructor.
  - apply H. by left.
  - apply IH. intros b Hb. apply H. by right.
Qed.

Lemma replicate_as_map (n : nat) (a : A) :
  replicate n a = map (fun _ => a) (seq 0 n).
Proof.
  induction n as [| n IH]; [done |].
  cbn [replicate seq map]. f_equal. by rewrite <- seq_shift, map_map.
Qed.

End ByIndex.

Lemma zip_with_map_seq {A B C : Type} (h : A -> B -> C)
    (f : nat -> A) (g : nat -> B) (n : nat) :
  zip_with h (map f (seq 0 n)) (map g (seq 0 n))
  = map (fun i => h (f i) (g i)) (seq 0 n).
Proof.
  change (map f (seq 0 n)) with (f <$> seq 0 n).
  change (map g (seq 0 n)) with (g <$> seq 0 n).
  rewrite zip_with_fmap_l, zip_with_fmap_r. by rewrite zip_with_diag.
Qed.

(** *** Matrices *)

Lemma dot_by_index (u v : list R) :
  length u = length v ->
  dot u v = Rsum (map (fun k => (nth k u 0 * nth k v 0)%R) (seq 0 (length u))).
Proof.
  revert v. induction u as [| a u IH]; intros [| b v] Hlen; try done.
  unfold dot in *. cbn [zip_with Rsum fold_right length seq map nth].
  f_equal. rewrite <- seq_shift, map_map. apply IH. by injection Hlen.
Qed.

Lemma column_transpose (h : nat) (m : list (list R)) (j : nat) :
  Forall (fun row => length row = h) m -> j < length m ->
  column j (transpose h m) = nth j m [].
Proof.
  intros Hrows Hj. unfold column at 1, transpose. rewrite map_map.
  assert (length (nth j m []) = h) as Hlen.
  { rewrite Forall_forall in Hrows. apply Hrows, list_elem_of_In.
    by apply nth_In. }
  rewrite <- (map_nth_seq 0%R (nth j m [])), Hlen.
  apply map_ext. intros k. unfold column.
  rewrite (nth_indep _ 0%R ((fun row => nth k row 0%R) []))
    by (by rewrite length_map).
  by rewrite (map_nth (fun row => nth k row 0%R)).
Qed.

Lemma mat_mul_transpose (h : nat) (q nb : list (list R)) :
  0 < h ->
  Forall (fun row => length row = h) q ->
  Forall (fun row => length row = h) nb ->
  mat_mul q (transpose h nb) = Some (map (fun qrow => map (dot qrow) nb) q).
Proof.
  intros Hh Hq Hnb. unfold mat_mul.
  assert (length (transpose h nb) = h) as Ht.
  { unfold transpose. by rewrite length_map, length_seq. }
  assert (length (hd [] (transpose h nb)) = length nb) as Hc.
  { unfold transpose. destruct h; [lia |]. simpl.
    unfold column. by rewrite length_map. }
  rewrite Ht, Hc.
  replace (forallb (fun a => length a =? h) q) with true.
  2:{ symmetry. apply forallb_forall. intros a Ha%list_elem_of_In.
      rewrite Forall_forall in Hq. apply Nat.eqb_eq. by apply Hq. }
  f_equal. apply map_ext. intros a.
  rewrite (map_via_nth [] (dot a) nb).
  apply map_seq_ext. intros j Hj. by rewrite column_transpose by (done || lia).
Qed.

(** *** Views *)

Lemma view_cols_rows {A : Type} (t : tensor A) (r c : nat) :
  0 < c -> length (data t) = r * c ->
  view_cols t c = Some (rows_of r c (data t)).
Proof.
  intros Hc Hlen. unfold view_cols. rewrite Hlen.
  destruct (Nat.eqb_spec c 0); [lia |].
  rewrite Nat.Div0.mod_mul, Nat.eqb_refl. by rewrite Nat.div_mul by lia.
Qed.

Lemma view_rows_rows {A : Type} (t : tensor A) (r c : nat) :
  0 < r -> length (data t) = r * c ->
  view_rows t r = Some (rows_of r c (data t)).
Proof.
  intros Hr Hlen. unfold view_rows. rewrite Hlen, (Nat.mul_comm r c).
  destruct (Nat.eqb_spec r 0); [lia |].
  rewrite Nat.Div0.mod_mul, Nat.eqb_refl. by rewrite Nat.div_mul by lia.
Qed.

(** *** The neighbor loss *)

(** The similarity of query token [i] and neighbor token [j]. *)
Lemma raw_scores_by_index (b n : tensor R) (Bq Sq H N : nat) :
  shape b = [Bq; Sq; H] -> 0 < H ->
  length (data b) = Bq * Sq * H -> length (data n) = N * H ->
  raw_scores b n
  = Some (map (fun i => map (similarity_at H (data b) (data n) i) (seq 0 N))
              (seq 0 (Bq * Sq))).
Proof.
  intros Hshape HH Hb Hn. unfold raw_scores. rewrite Hshape.
  rewrite (view_cols_rows b (Bq * Sq) H), (view_cols_rows n N H) by done.
  cbn [mbind option_bind].
  rewrite mat_mul_transpose by (done || apply rows_of_lengths; lia).
  f_equal. unfold rows_of. rewrite map_map.
  apply map_seq_ext. intros i Hi. rewrite map_map.
  apply map_seq_ext. intros j Hj.
  rewrite dot_by_index by (rewrite !length_take_drop; nia).
  rewrite length_take_drop by nia. unfold similarity_at.
  apply f_equal, map_seq_ext. intros k Hk.
  by rewrite !nth_take_drop by lia.
Qed.

Lemma In_targets_of (M : nat) (targets : list Z) (P i : nat) (t : Z) :
  length targets = P * M -> i < P ->
  In t (targets_of M targets i) -> In t targets.
Proof.
  intros Hlen Hi (k & <- & Hk%in_seq)%in_map_iff. apply nth_In. nia.
Qed.

(** What a target index selects in the row of query token [i], once the
    column of [-inf] is appended. *)
Lemma extended_row_lookup (H N : nat) (query neighbor : list R) (i : nat) (t : Z) :
  (0 <= t <= Z.of_nat N)%Z ->
  (map Fin (log_softmax (map (similarity_at H query neighbor i) (seq 0 N)))
   ++ [NInf]) !! Z.to_nat t
  = Some (extended_log_prob H N query neighbor i t).
Proof.
  intros Ht. unfold extended_log_prob, log_softmax.
  rewrite !map_map.
  destruct (Z.eqb_spec t (Z.of_nat N)) as [-> | Hne].
  - rewrite Nat2Z.id. rewrite lookup_app_r by (by rewrite length_map, length_seq).
    by rewrite length_map, length_seq, Nat.sub_diag.
  - rewrite lookup_app_l by (rewrite length_map, length_seq; lia).
    change (map ?f ?l) with (f <$> l).
    rewrite list_lookup_fmap, lookup_seq_lt by lia. simpl.
    reflexivity.
Qed.

Lemma gather_row_extended (H N : nat) (query neighbor : list R) (i : nat)
    (idx : list Z) :
  Forall (fun t => (0 <= t <= Z.of_nat N)%Z) idx ->
  gather_row
    (map Fin (log_softmax (map (similarity_at H query neighbor i) (seq 0 N)))
     ++ [NInf]) idx
  = Some (map (extended_log_prob H N query neighbor i) idx).
Proof.
  intros Hidx. unfold gather_row. apply mapM_map_Some.
  intros t Ht. rewrite Forall_forall in Hidx.
  specialize (Hidx t (proj2 (list_elem_of_In _ _) Ht)).
  destruct (Z.leb_spec 0 t); [| lia].
  by apply extended_row_lookup.
Qed.

(** [get_batch_loss] computes the formula. *)
Lemma get_batch_loss_by_index (b n : tensor R) (targets : tensor Z)
    (Bq Sq H N M : nat) :
  shape b = [Bq; Sq; H] -> 0 < H -> 0 < Bq * Sq ->
  length (data b) = Bq * Sq * H -> length (data n) = N * H ->
  length (data targets) = Bq * Sq * M ->
  Forall (fun t => (0 <= t <= Z.of_nat N)%Z) (data targets) ->
  get_batch_loss b n targets
  = Some (neighbor_loss_formula Bq Sq H N M (data b) (data n) (data targets)).
Proof.
  intros Hshape HH HP Hb Hn Ht Hrange. unfold get_batch_loss.
  rewrite (raw_scores_by_index b n Bq Sq H N) by done.
  cbn [mbind option_bind]. rewrite !map_map.
  rewrite length_map, length_seq, replicate_as_map, zip_with_map_seq.
  rewrite length_map, length_seq.
  rewrite (view_rows_rows targets (Bq * Sq) M) by done.
  cbn [mbind option_bind].
  rewrite (rows_of_by_index 0%Z) by lia. fold (targets_of M (data targets)).
  unfold gather. rewrite !length_map, length_seq, Nat.leb_refl.
  rewrite zip_with_map_seq.
  rewrite (mapM_map_Some _
             (fun '(row, idx) => map (fun t => nth (Z.to_nat t) row NaN) idx)).
  2:{ intros [row idx] (i & [= <- <-] & Hi%in_seq)%in_map_iff.
      rewrite gather_row_extended.
      - f_equal. apply map_ext_in. intros t Hin. rewrite nth_lookup.
        rewrite extended_row_lookup; [done |].
        rewrite Forall_forall in Hrange. apply Hrange, list_elem_of_In.
        eapply In_targets_of; [exact Ht | | exact Hin]. lia.
      - apply Forall_forall. intros t Hin%list_elem_of_In.
        rewrite Forall_forall in Hrange. apply Hrange, list_elem_of_In.
        eapply In_targets_of; [exact Ht | | exact Hin]. lia. }
  cbn [mbind option_bind]. unfold neighbor_loss_formula.
  do 3 f_equal. rewrite !map_map. apply map_seq_ext. intros i Hi.
  unfold logsumexp. rewrite !map_map. do 2 f_equal.
  apply map_ext_in. intros t Hin. rewrite nth_lookup.
  rewrite extended_row_lookup; [done |].
  rewrite Forall_forall in Hrange. apply Hrange, list_elem_of_In.
  eapply In_targets_of; [exact Ht | | exact Hin]. lia.
Qed.

(** C1. For a query tensor [Bq x Sq x H], neighbor entries that flatten to
    [N x H] and [Bq*Sq x M] target indices in [0, N] (non-empty batch,
    H > 0), [get_batch_loss] returns the negated sum over the query tokens
    of the log-sum-exp, over the token's targets, of the log-softmax
    similarity scores extended by [-inf] at index [N]. *)
Theorem get_batch_loss_formula (b n : tensor R) (targets : tensor Z)
    (Bq Sq H N M : nat) :
  shape b = [Bq; Sq; H] -> 0 < H -> 0 < Bq * Sq ->
  length (data b) = Bq * Sq * H -> length (data n) = N * H ->
  length (data targets) = Bq * Sq * M ->
  Forall (fun t => (0 <= t <= Z.of_nat N)%Z) (data targets) ->
  get_batch_loss b n targets
  = Some (neighbor_loss_formula Bq Sq H N M (data b) (data n) (data targets)).
Proof. exact (get_batch_loss_by_index b n targets Bq Sq H N M). Qed.

(** *** Sums of reals *)

Local Open Scope R_scope.

Lemma Rsum_cons (x : R) (l : list R) : Rsum (x :: l) = x + Rsum l.
Proof. reflexivity. Qed.

Lemma Rsum_nonneg (l : list R) : Forall (fun x => 0 <= x) l -> 0 <= Rsum l.
Proof.
  induction 1 as [| x l Hx _ IH]; simpl; [lra |]. lra.
Qed.

Lemma Rsum_pos (l : list R) :
  l <> [] -> Forall (fun x => 0 < x) l -> 0 < Rsum l.
Proof.
  intros Hne Hall. destruct Hall as [| x l Hx Hall]; [done |].
  simpl. assert (0 <= Rsum l); [| lra].
  apply Rsum_nonneg. eapply Forall_impl; [exact Hall |]. simpl. intros; lra.
Qed.

Lemma Rsum_scale (c : R) (l : list R) :
  Rsum (map (fun x => x * c) l) = Rsum l * c.
Proof. induction l as [| x l IH]; simpl; [lra |]. rewrite IH. lra. Qed.

Lemma Rsum_submseteq (p : nat -> R) (l k : list nat) :
  (forall j, 0 <= p j) -> l ⊆+ k -> Rsum (map p l) <= Rsum (map p k).
Proof.
  intros Hp Hsub. induction Hsub as [| j l k _ IH | i j l | j l k _ IH
                                     | l k m _ IH1 _ IH2]; simpl.
  - lra.
  - lra.
  - lra.
  - specialize (Hp j). lra.
  - lra.
Qed.

Lemma xsum_Fin (l : list R) : xsum (map Fin l) = Fin (Rsum l).
Proof. induction l as [| x l IH]; simpl; [done |]. by rewrite IH. Qed.

(** *** Softmax probabilities *)

Section Softmax.

Variables (H N : nat) (query neighbor : list R) (i : nat).

Let prob (j : nat) : R := exp (log_prob_at H N query neighbor i j).

Lemma prob_pos j : 0 < prob j.
Proof. apply exp_pos. Qed.

Lemma partition_pos :
  (0 < N)%nat ->
  0 < Rsum (map (fun j' => exp (similarity_at H query neighbor i j')) (seq 0 N)).
Proof.
  intros HN. apply Rsum_pos.
  - destruct N; [lia | done].
  - apply Forall_forall. intros x (j & -> & _)%list_elem_of_fmap.
    apply exp_pos.
Qed.

Lemma prob_sum_one : (0 < N)%nat -> Rsum (map prob (seq 0 N)) = 1.
Proof.
  intros HN. pose proof (partition_pos HN) as HZ.
  set (Z := Rsum _) in HZ.
  rewrite (map_ext prob
             (fun j => exp (similarity_at H query neighbor i j) * / Z)).
  - rewrite <- (map_map (fun j => exp (similarity_at H query neighbor i j))
                        (fun x => x * / Z)).
    rewrite Rsum_scale. fold Z. field. lra.
  - intros j. unfold prob, log_prob_at. fold Z.
    unfold Rminus. by rewrite exp_plus, exp_Ropp, exp_ln.
Qed.

End Softmax.

Section TokenMass.

Variables (H N : nat) (query neighbor : list R) (i : nat).

Let valid (t : Z) : Prop := (t < Z.of_nat N)%Z.

Lemma xexp_extended t :
  xexp (extended_log_prob H N query neighbor i t)
  = Fin (target_mass H N query neighbor i t).
Proof.
  unfold extended_log_prob, target_mass.
  by destruct (Z.eqb_spec t (Z.of_nat N)).
Qed.

Lemma target_mass_valid (row : list Z) :
  Forall (fun t => (0 <= t <= Z.of_nat N)%Z) row ->
  Rsum (map (target_mass H N query neighbor i) row)
  = Rsum (map (fun j => exp (log_prob_at H N query neighbor i j))
              (map Z.to_nat (filter valid row))).
Proof.
  induction 1 as [| t row Ht _ IH]; [done |].
  rewrite filter_cons. cbn [map]. rewrite Rsum_cons, IH.
  unfold target_mass.
  destruct (Z.eqb_spec t (Z.of_nat N)) as [-> | Hne].
  - rewrite decide_False by (unfold valid; lia). lra.
  - rewrite decide_True by (unfold valid; lia).
    cbn [map]. by rewrite Rsum_cons.
Qed.

Lemma valid_indices_NoDup (row : list Z) :
  Forall (fun t => (0 <= t <= Z.of_nat N)%Z) row ->
  NoDup (filter valid row) -> NoDup (map Z.to_nat (filter valid row)).
Proof.
  intros Hrange Hnd. apply NoDup_fmap_2_strong; [| done].
  intros s t Hs%list_elem_of_filter Ht%list_elem_of_filter Heq.
  rewrite Forall_forall in Hrange.
  pose proof (Hrange s (proj2 Hs)). pose proof (Hrange t (proj2 Ht)). lia.
Qed.

(** The mass is a probability: the targets are distinct neighbor tokens,
    and the softmax over all neighbor tokens sums to 1. *)
Lemma token_mass_bounds (row : list Z) :
  Forall (fun t => (0 <= t <= Z.of_nat N)%Z) row ->
  Exists valid row -> NoDup (filter valid row) ->
  0 < Rsum (map (target_mass H N query neighbor i) row) <= 1.
Proof.
  intros Hrange Hex Hnd. rewrite target_mass_valid by done.
  set (js := map Z.to_nat (filter valid row)).
  assert (forall j, j ∈ js -> (j < N)%nat) as Hjs.
  { intros j (t & -> & [Hv Ht]%list_elem_of_filter)%list_elem_of_fmap.
    rewrite Forall_forall in Hrange. specialize (Hrange t Ht).
    unfold valid in Hv. lia. }
  assert (js <> []) as Hne.
  { apply Exists_exists in Hex as (t & Ht & Hv).
    assert (Z.to_nat t ∈ js) as Hin.
    { apply list_elem_of_fmap. exists t. split; [done |].
      by apply list_elem_of_filter. }
    intros Heq. rewrite Heq in Hin. by apply not_elem_of_nil in Hin. }
  assert ((0 < N)%nat) as HN.
  { destruct js as [| j js']; [done |].
    specialize (Hjs j ltac:(left)). lia. }
  split.
  - apply Rsum_pos; [by destruct js |].
    apply Forall_forall. intros x (j & -> & _)%list_elem_of_fmap.
    apply exp_pos.
  - rewrite <- (prob_sum_one H N query neighbor i HN).
    apply (Rsum_submseteq
             (fun j => exp (log_prob_at H N query neighbor i j))).
    + intros j. left. apply exp_pos.
    + apply NoDup_submseteq.
      * by apply valid_indices_NoDup.
      * intros j Hj. apply elem_of_seq. specialize (Hjs j Hj). lia.
Qed.

End TokenMass.

Lemma Rsum_nonpos (l : list R) : Forall (fun x => x <= 0) l -> Rsum l <= 0.
Proof.
  induction 1 as [| x l Hx _ IH]; simpl; lra.
Qed.

Lemma ln_nonpos (s : R) : 0 < s <= 1 -> ln s <= 0.
Proof.
  intros [Hpos [Hlt | ->]].
  - left. rewrite <- ln_1. by apply ln_increasing.
  - rewrite ln_1. lra.
Qed.

Lemma token_loss_term (H N : nat) (query neighbor : list R) (i : nat)
    (row : list Z) :
  0 < Rsum (map (target_mass H N query neighbor i) row) ->
  xlog (xsum (map (fun t => xexp (extended_log_prob H N query neighbor i t))
                  row))
  = Fin (ln (Rsum (map (target_mass H N query neighbor i) row))).
Proof.
  intros Hpos.
  rewrite (map_ext _ (fun t => Fin (target_mass H N query neighbor i t)))
    by apply xexp_extended.
  rewrite <- (map_map (target_mass H N query neighbor i) Fin), xsum_Fin.
  simpl. by destruct (Rlt_dec 0 _).
Qed.

(** The sign of the loss in exact arithmetic. When every query token
    has at least one valid target index and no valid index twice, the
    loss is a real number and it is >= 0; it is 0 when the targets of
    every token are all the neighbor tokens. The program returns the
    binary32 rounding of this value: at 0 its sign is decided by the
    rounding of [exp] and [log] inside [log_softmax] and [logsumexp],
    which are outside this development. *)
Theorem get_batch_loss_nonneg (b n : tensor R) (targets : tensor Z)
    (Bq Sq H N M : nat) :
  shape b = [Bq; Sq; H] -> (0 < H)%nat -> (0 < Bq * Sq)%nat ->
  length (data b) = (Bq * Sq * H)%nat -> length (data n) = (N * H)%nat ->
  length (data targets) = (Bq * Sq * M)%nat ->
  Forall (fun t => (0 <= t <= Z.of_nat N)%Z) (data targets) ->
  (forall i, (i < Bq * Sq)%nat ->
     Exists (fun t => (t < Z.of_nat N)%Z) (targets_of M (data targets) i)) ->
  (forall i, (i < Bq * Sq)%nat ->
     NoDup (filter (fun t => (t < Z.of_nat N)%Z)
                   (targets_of M (data targets) i))) ->
  exists loss : R, get_batch_loss b n targets = Some (Fin loss) /\ 0 <= loss.
Proof.
  intros Hshape HH HP Hb Hn Ht Hrange Hvalid Hdistinct.
  rewrite (get_batch_loss_by_index b n targets Bq Sq H N M) by done.
  unfold neighbor_loss_formula.
  assert (forall i, (i < Bq * Sq)%nat ->
            0 < Rsum (map (target_mass H N (data b) (data n) i)
                          (targets_of M (data targets) i)) <= 1) as Hmass.
  { intros i Hi. apply token_mass_bounds; [| by apply Hvalid
                                            | by apply Hdistinct].
    apply Forall_forall. intros t Hin%list_elem_of_In.
    rewrite Forall_forall in Hrange. apply Hrange, list_elem_of_In.
    by eapply In_targets_of. }
  rewrite (map_seq_ext _
    (fun i => Fin (ln (Rsum (map (target_mass H N (data b) (data n) i)
                                 (targets_of M (data targets) i)))))).
  2:{ intros i Hi. apply token_loss_term. apply Hmass. lia. }
  rewrite <- (map_map _ Fin), xsum_Fin. simpl.
  eexists. split; [reflexivity |].
  assert (Rsum (map (fun i =>
            ln (Rsum (map (target_mass H N (data b) (data n) i)
                          (targets_of M (data targets) i))))
            (seq 0 (Bq * Sq))) <= 0); [| lra].
  apply Rsum_nonpos, Forall_forall.
  intros x (i & -> & Hi%elem_of_seq)%list_elem_of_fmap.
  apply ln_nonpos, Hmass. lia.
Qed.

Lemma get_batch_loss_nonneg_witness :
  shape one_query = [1; 1; 1]%nat /\ (0 < 1)%nat /\ (0 < 1 * 1)%nat /\
  length (data one_query) = (1 * 1 * 1)%nat /\
  length (data one_neighbor) = (1 * 1)%nat /\
  length (data padded_targets) = (1 * 1 * 2)%nat /\
  Forall (fun t => (0 <= t <= Z.of_nat 1)%Z) (data padded_targets) /\
  (forall i, (i < 1 * 1)%nat ->
     Exists (fun t => (t < Z.of_nat 1)%Z)
            (targets_of 2 (data padded_targets) i)) /\
  (forall i, (i < 1 * 1)%nat ->
     NoDup (filter (fun t => (t < Z.of_nat 1)%Z)
                   (targets_of 2 (data padded_targets) i))) /\
  exists loss : R,
    get_batch_loss one_query one_neighbor padded_targets = Some (Fin loss)
    /\ 0 <= loss.
Proof.
  assert (Forall (fun t => (0 <= t <= Z.of_nat 1)%Z) (data padded_targets))
    as Hrange by (repeat constructor; simpl; lia).
  assert (forall i, (i < 1 * 1)%nat ->
            Exists (fun t => (t < Z.of_nat 1)%Z)
                   (targets_of 2 (data padded_targets) i)) as Hvalid.
  { intros i Hi. replace i with 0%nat by lia. left. simpl. lia. }
  assert (forall i, (i < 1 * 1)%nat ->
            NoDup (filter (fun t => (t < Z.of_nat 1)%Z)
                          (targets_of 2 (data padded_targets) i))) as Hdistinct.
  { intros i Hi. replace i with 0%nat by lia. vm_compute.
    repeat constructor. apply not_elem_of_nil. }
  repeat (split; [first [reflexivity | lia | assumption] |]).
  apply (get_batch_loss_nonneg one_query one_neighbor padded_targets
           1 1 1 1 2); first [reflexivity | lia | assumption].
Defined.

(** [gather] takes a repeated index twice: one query token whose two
    target slots both hold the index of the one neighbor token has a
    valid target, and its loss is -ln 2. *)
Lemma get_batch_loss_negative_on_repeated_target :
  (forall i, (i < 1 * 1)%nat ->
     Exists (fun t => (t < Z.of_nat 1)%Z)
            (targets_of 2 (data repeated_targets) i)) /\
  get_batch_loss one_query one_neighbor repeated_targets
  = Some (Fin (- ln 2)) /\
  - ln 2 < 0.
Proof.
  split; [| split].
  - intros i Hi. replace i with 0%nat by lia. left. simpl. lia.
  - rewrite (get_batch_loss_by_index one_query one_neighbor repeated_targets
               1 1 1 1 2);
      [| reflexivity | lia | lia | reflexivity | reflexivity | reflexivity
       | repeat constructor; simpl; lia ].
    unfold neighbor_loss_formula.
    change (seq 0 (1 * 1)) with [0%nat]. cbn [map].
    change (targets_of 2 (data repeated_targets) 0) with [0%Z; 0%Z].
    cbn [map]. rewrite !xexp_extended.
    assert (target_mass 1 1 (data one_query) (data one_neighbor) 0 0 = 1)
      as ->.
    { unfold target_mass, log_prob_at, similarity_at. simpl.
      rewrite !Rmult_0_l, !Rplus_0_r, ln_exp, Rminus_diag. apply exp_0. }
    simpl. destruct (Rlt_dec 0 (1 + (1 + 0))) as [_ | Hn]; [| destruct Hn; lra].
    simpl. do 2 f_equal. replace (1 + (1 + 0)) with 2 by lra. lra.
  - assert (0 < ln 2); [| lra].
    rewrite <- ln_1. apply ln_increasing; lra.
Qed.

Lemma get_batch_loss_formula_witness :
  shape one_query = [1; 1; 1]%nat /\ (0 < 1)%nat /\ (0 < 1 * 1)%nat /\
  length (data one_query) = (1 * 1 * 1)%nat /\
  length (data one_neighbor) = (1 * 1)%nat /\
  length (data padded_targets) = (1 * 1 * 2)%nat /\
  Forall (fun t => (0 <= t <= Z.of_nat 1)%Z) (data padded_targets) /\
  get_batch_loss one_query one_neighbor padded_targets
  = Some (neighbor_loss_formula 1 1 1 1 2 (data one_query)
            (data one_neighbor) (data padded_targets)).
Proof.
  assert (Forall (fun t => (0 <= t <= Z.of_nat 1)%Z) (data padded_targets))
    as Hrange by (repeat constructor; simpl; lia).
  repeat (split; [first [reflexivity | lia | assumption] |]).
  apply (get_batch_loss_formula one_query one_neighbor padded_targets
           1 1 1 1 2); first [reflexivity | lia | assumption].
Defined.

Local Close Scope R_scope.

(** *** The neighbor decoder *)

Lemma argmax_from_lt (l : list xreal) (best_i : nat) (best : xreal) (i : nat) :
  best_i < i -> argmax_from best_i best i l < i + length l.
Proof.
  revert best_i best i. induction l as [| x l IH]; intros best_i best i Hlt.
  - simpl. lia.
  - cbn [argmax_from length]. destruct (xgt x best).
    + specialize (IH i x (S i)). lia.
    + specialize (IH best_i best (S i)). lia.
Qed.

Lemma argmax_lt (l : list xreal) : l <> [] -> argmax l < length l.
Proof.
  destruct l as [| x l]; [done |]. intros _. unfold argmax.
  pose proof (argmax_from_lt l 0 x 1). simpl. lia.
Qed.

Lemma mapM_Forall {A B : Type} (f : A -> option B) (P : B -> Prop)
    (l : list A) :
  Forall (fun x => exists y, f x = Some y /\ P y) l ->
  exists k, mapM f l = Some k /\ length k = length l /\ Forall P k.
Proof.
  induction 1 as [| x l (y & Hy & HP) _ (k & Hk & Hlen & HPk)].
  - by exists [].
  - exists (y :: k). cbn [mapM]. rewrite Hy, Hk. simpl.
    split; [done |]. split; [by rewrite Hlen |]. by constructor.
Qed.

Lemma rows_of_Forall {A : Type} (P : A -> Prop) (r c : nat) (v : list A) :
  Forall P v -> Forall (Forall P) (rows_of r c v).
Proof.
  intros Hv. unfold rows_of. apply Forall_forall.
  intros row (i & -> & _)%list_elem_of_fmap.
  by apply Forall_take, Forall_drop.
Qed.

Lemma broadcast_add_same_shape (m n : nat) (scores : list (list R))
    (mask : tensor xreal) :
  shape mask = [m; n] ->
  exists masked, broadcast_add m n scores mask = Some masked /\
                 length masked = m.
Proof.
  intros Hshape. unfold broadcast_add, broadcast_dim.
  rewrite Hshape. cbn [mbind option_bind]. rewrite !Nat.eqb_refl.
  cbn [mbind option_bind]. eexists. split; [reflexivity |].
  by rewrite length_map, length_seq.
Qed.

Lemma tag_scores_total {Tag : Type} (m n : nat) (scores : list (list R))
    (tag_to_mask : list (Tag * tensor xreal)) :
  Forall (fun tm => shape tm.2 = [m; n]) tag_to_mask ->
  exists tag_scores,
    mapM (fun '(tag, mask) =>
            masked ← broadcast_add m n scores mask;
            Some (map logsumexp masked)) tag_to_mask = Some tag_scores /\
    length tag_scores = length tag_to_mask /\
    Forall (fun v => length v = m) tag_scores.
Proof.
  intros Hshapes. apply mapM_Forall.
  eapply Forall_impl; [exact Hshapes |]. intros [tag mask] Hshape.
  destruct (broadcast_add_same_shape m n scores mask Hshape)
    as (masked & -> & Hlen).
  eexists. split; [reflexivity |]. by rewrite length_map.
Qed.

Lemma torch_stack_same_length {A : Type} (ts : list (list A)) (m : nat) :
  ts <> [] -> Forall (fun v => length v = m) ts -> torch_stack ts = Some ts.
Proof.
  intros Hne Hall. destruct Hall as [| t rest Ht Hrest]; [done |].
  unfold torch_stack.
  replace (forallb (fun u => length u =? length t) rest) with true; [done |].
  symmetry. apply forallb_forall. intros u Hu%list_elem_of_In.
  rewrite Forall_forall in Hrest. apply Nat.eqb_eq.
  by rewrite Ht, (Hrest u Hu).
Qed.

Lemma argmax_dim0_bound (stacked : list (list xreal)) :
  stacked <> [] ->
  Forall (fun index => index < length stacked) (argmax_dim0 stacked).
Proof.
  intros Hne. unfold argmax_dim0. apply Forall_forall.
  intros index (p & -> & _)%list_elem_of_fmap.
  rewrite <- (length_map (fun row => nth p row NaN) stacked).
  apply argmax_lt. by destruct stacked.
Qed.

(** On well-shaped inputs (query [B x S x H] with H > 0, neighbor
    entries that flatten to [N x H], masks of the shape [B*S x N] of the
    score matrix) and a non-empty table the decoder returns. *)
Lemma get_batch_predictions_total {Tag : Type} (b n : tensor R)
    (tag_to_mask : list (Tag * tensor xreal)) (B S H N : nat) :
  shape b = [B; S; H] -> 0 < H ->
  length (data b) = B * S * H -> length (data n) = N * H ->
  tag_to_mask <> [] ->
  Forall (fun tm => shape tm.2 = [B * S; N]) tag_to_mask ->
  exists preds,
    get_batch_predictions b n tag_to_mask = Some preds /\
    length preds = B /\
    Forall (fun row =>
              length row = S /\
              Forall (fun tag => tag ∈ map fst tag_to_mask) row) preds.
Proof.
  intros Hshape HH Hb Hn Hne Hmasks. unfold get_batch_predictions.
  rewrite Hshape.
  rewrite (view_cols_rows b (B * S) H), (view_cols_rows n N H) by done.
  cbn [mbind option_bind].
  rewrite mat_mul_transpose by (done || apply rows_of_lengths; lia).
  cbn [mbind option_bind]. rewrite !length_rows_of.
  destruct (tag_scores_total (B * S) N
              (map log_softmax
                 (map (fun qrow => map (dot qrow) (rows_of N H (data n)))
                      (rows_of (B * S) H (data b))))
              tag_to_mask Hmasks)
    as (tag_scores & -> & Hcount & Hlens).
  cbn [mbind option_bind].
  assert (tag_scores <> []) as Hscores.
  { intros ->. by destruct tag_to_mask. }
  rewrite (torch_stack_same_length tag_scores (B * S)) by done.
  cbn [mbind option_bind].
  assert (length (argmax_dim0 tag_scores) = B * S) as Hpreds.
  { unfold argmax_dim0. rewrite length_map, length_seq.
    destruct Hlens as [| v rest Hv _]; done. }
  unfold view2. rewrite Hpreds, Nat.eqb_refl. cbn [mbind option_bind].
  pose proof (argmax_dim0_bound tag_scores Hscores) as Hbound.
  rewrite Hcount in Hbound.
  destruct (mapM_Forall
              (mapM (fun index =>
                       (map_seq 0 (map fst tag_to_mask) : gmap nat Tag)
                         !! index))
              (fun row => length row = S /\
                          Forall (fun tag => tag ∈ map fst tag_to_mask) row)
              (rows_of B S (argmax_dim0 tag_scores)))
    as (preds & Hdecode & Hlen & Hrows).
  - pose proof (rows_of_lengths B S (argmax_dim0 tag_scores)) as Hlens'.
    rewrite Hpreds in Hlens'. specialize (Hlens' (Nat.le_refl _)).
    pose proof (rows_of_Forall _ B S _ Hbound) as Hbounds.
    apply Forall_forall. intros row Hrow.
    rewrite Forall_forall in Hlens'. rewrite Forall_forall in Hbounds.
    destruct (mapM_Forall
                (fun index =>
                   (map_seq 0 (map fst tag_to_mask) : gmap nat Tag) !! index)
                (fun tag => tag ∈ map fst tag_to_mask) row)
      as (out & Hout & Hlen & Htags).
    + eapply Forall_impl; [exact (Hbounds row Hrow) |].
      intros index Hindex. simpl in Hindex.
      rewrite lookup_map_seq_0.
      destruct (lookup_lt_is_Some_2 (map fst tag_to_mask) index) as [tag Htag].
      { by rewrite length_map. }
      exists tag. split; [done |]. by eapply list_elem_of_lookup_2.
    + exists out. split; [done |]. split; [| done].
      rewrite Hlen. by apply Hlens'.
  - exists preds. split; [done |]. split; [| done].
    by rewrite Hlen, length_rows_of.
Qed.

(** Whatever the decoder returns is a [B x S] structure of tags of the
    table. *)
Lemma get_batch_predictions_sound {Tag : Type} (b n : tensor R)
    (tag_to_mask : list (Tag * tensor xreal)) (preds : list (list Tag)) :
  get_batch_predictions b n tag_to_mask = Some preds ->
  exists B S H,
    shape b = [B; S; H] /\ length preds = B /\
    Forall (fun row =>
              length row = S /\
              Forall (fun tag => tag ∈ map fst tag_to_mask) row) preds.
Proof.
  unfold get_batch_predictions. intros Hret.
  destruct (shape b) as [| B [| S [| H [| ? ?]]]]; try done.
  exists B, S, H. split; [done |].
  destruct (view_cols b H) as [q |]; [| done].
  destruct (view_cols n H) as [nb |]; [| done].
  cbn [mbind option_bind] in Hret.
  destruct (mat_mul q (transpose H nb)) as [sim |]; [| done].
  cbn [mbind option_bind] in Hret.
  destruct (mapM _ tag_to_mask) as [tag_scores |]; [| done].
  cbn [mbind option_bind] in Hret.
  destruct (torch_stack tag_scores) as [stacked |]; [| done].
  cbn [mbind option_bind] in Hret. unfold view2 in Hret.
  destruct (Nat.eqb_spec (length (argmax_dim0 stacked)) (B * S)) as [Hlen |];
    [| done].
  cbn [mbind option_bind] in Hret.
  apply mapM_Some_1 in Hret.
  split.
  - apply Forall2_length in Hret. by rewrite <- Hret, length_rows_of.
  - pose proof (rows_of_lengths B S (argmax_dim0 stacked)) as Hlens.
    rewrite Hlen in Hlens. specialize (Hlens (Nat.le_refl _)).
    induction Hret as [| row out rows outs Hrow _ IH]; [constructor |].
    apply Forall_cons in Hlens as [Hrowlen Hlens].
    constructor; [| by apply IH].
    apply mapM_Some_1 in Hrow. split.
    + apply Forall2_length in Hrow. by rewrite <- Hrow.
    + clear Hrowlen. induction Hrow as [| index tag row out Htag _ IH'];
        constructor; [| done].
      rewrite lookup_map_seq_0 in Htag. by eapply list_elem_of_lookup_2.
Qed.

(** C3. Whatever inputs [get_batch_predictions] is given, a result it
    returns is a [B x S] structure in which every query token has one
    tag, and that tag is one of the tags of the tag-to-mask table; and
    on well-shaped inputs with a non-empty table it does return. *)
Theorem get_batch_predictions_tags {Tag : Type} (b n : tensor R)
    (tag_to_mask : list (Tag * tensor xreal)) :
  (forall preds,
     get_batch_predictions b n tag_to_mask = Some preds ->
     exists B S H,
       shape b = [B; S; H] /\ length preds = B /\
       Forall (fun row =>
                 length row = S /\
                 Forall (fun tag => tag ∈ map fst tag_to_mask) row) preds) /\
  (forall B S H N,
     shape b = [B; S; H] -> 0 < H ->
     length (data b) = B * S * H -> length (data n) = N * H ->
     tag_to_mask <> [] ->
     Forall (fun tm => shape tm.2 = [B * S; N]) tag_to_mask ->
     is_Some (get_batch_predictions b n tag_to_mask)).
Proof.
  split.
  - apply get_batch_predictions_sound.
  - intros B S H N Hshape HH Hb Hn Hne Hmasks.
    destruct (get_batch_predictions_total b n tag_to_mask B S H N)
      as (preds & -> & _); done.
Qed.

Lemma get_batch_predictions_tags_witness :
  is_Some (get_batch_predictions one_query one_neighbor sample_tag_to_mask).
Proof.
  apply (proj2 (get_batch_predictions_tags one_query one_neighbor
                  sample_tag_to_mask) 1 1 1 1).
  - reflexivity.
  - lia.
  - reflexivity.
  - reflexivity.
  - discriminate.
  - repeat constructor.
Defined.

(** *** Cosine normalization *)

Section Cosine.

Local Open Scope R_scope.







End Cosine.







(** *** The training loop *)

Lemma accumulate_after_zero_grad (g new : list R) :
  length g = length new -> accumulate_grad (zero_grad g) new = new.
Proof.
  unfold accumulate_grad, zero_grad. revert new.
  induction g as [| a g IH]; intros [| b new] Hlen; try done.
  cbn [map zip_with]. f_equal.
  - apply Rplus_0_l.
  - apply IH. by injection Hlen.
Qed.

Lemma length_clip_grad_norm_ (max_norm : R) (g : list R) :
  length (clip_grad_norm_ max_norm g) = length g.
Proof.
  unfold clip_grad_norm_. destruct (Rlt_dec _ 1); [| done].
  by rewrite length_map.
Qed.

Section TrainLoop.

Context {Opt : Type}.
Variables (cfg : config) (env : Trainer Opt).

(** The gradient that the optimizer is given for [batch] at parameters
    [theta], when nothing is left over in the buffers. *)
Let fresh_grad (theta : list R) (batch : train_batch) : list R :=
  clip_grad_norm_ (grad_norm cfg) (backward env theta batch).

Lemma train_step_grads (st st' : train_state Opt) (batch : train_batch) :
  length (grads st) = length (backward env (params st) batch) ->
  train_step cfg env st batch = Some st' ->
  grads st' = fresh_grad (params st) batch /\
  params st'
  = (optimizer_step env (optimizer st) (params st)
       (fresh_grad (params st) batch)).2.
Proof.
  intros Hlen. unfold train_step.
  rewrite accumulate_after_zero_grad by done. fold (fresh_grad (params st) batch).
  destruct (get_word_representations _ true _ _ None); [| done].
  cbn [mbind option_bind].
  destruct (get_word_representations _ _ _ _ (shard_batch_size cfg)); [| done].
  cbn [mbind option_bind].
  destruct (representations_loss _ _ _ _); [| done].
  cbn [mbind option_bind].
  destruct (optimizer_step env _ _ _) as [opt1 params1].
  by intros [= <-].
Qed.

Lemma train_step_stale (st : train_state Opt) (batch : train_batch)
    (stale : list R) :
  length stale = length (grads st) ->
  length (grads st) = length (backward env (params st) batch) ->
  train_step cfg env (with_grads stale st) batch = train_step cfg env st batch.
Proof.
  intros Hstale Hlen. unfold train_step, with_grads. cbn [params grads optimizer
    total_loss total_preds].
  by rewrite !accumulate_after_zero_grad by congruence.
Qed.

Hypothesis backward_shape :
  forall theta batch, length (backward env theta batch) = length theta.
Hypothesis optimizer_shape :
  forall o theta g,
    length g = length theta ->
    length (optimizer_step env o theta g).2 = length theta.

Lemma train_step_shape (st st' : train_state Opt) (batch : train_batch) :
  length (grads st) = length (params st) ->
  train_step cfg env st batch = Some st' ->
  length (grads st') = length (params st').
Proof.
  intros Hwf Hstep.
  destruct (train_step_grads st st' batch) as [-> ->]; [| done |].
  - by rewrite backward_shape.
  - unfold fresh_grad.
    rewrite length_clip_grad_norm_, backward_shape, optimizer_shape; [done |].
    by rewrite length_clip_grad_norm_, backward_shape.
Qed.

Lemma train_loop_shape (batches : list train_batch) (st st' : train_state Opt) :
  length (grads st) = length (params st) ->
  train_loop cfg env st batches = Some st' ->
  length (grads st') = length (params st').
Proof.
  revert st. induction batches as [| batch rest IH]; intros st Hwf Hloop.
  - by injection Hloop as <-.
  - cbn [train_loop] in Hloop.
    destruct (train_step cfg env st batch) as [st1 |] eqn:Hstep; [| done].
    cbn [mbind option_bind] in Hloop.
    eapply IH; [| exact Hloop]. by eapply train_step_shape.
Qed.

Lemma train_loop_app (l1 l2 : list train_batch) (st : train_state Opt) :
  train_loop cfg env st (l1 ++ l2)
  = (st' ← train_loop cfg env st l1; train_loop cfg env st' l2).
Proof.
  revert st. induction l1 as [| batch l1 IH]; intros st; [done |].
  cbn [app train_loop]. destruct (train_step cfg env st batch); [| done].
  cbn [mbind option_bind]. apply IH.
Qed.

End TrainLoop.

(** C10. In an epoch of [train] that runs to its end, at every batch
    iteration the buffers are zeroed before the forward pass, so the
    gradient that the optimizer step receives is the (clipped) gradient
    of the current batch at the current parameters and nothing else:
    whatever was left in the buffers, by earlier batches or by anything
    else, does not change the iteration. *)
Theorem train_gradients_do_not_accumulate {Opt : Type} (cfg : config)
    (env : Trainer Opt) (st st_end : train_state Opt)
    (batches : list train_batch) :
  (forall theta batch, length (backward env theta batch) = length theta) ->
  (forall o theta g,
     length g = length theta ->
     length (optimizer_step env o theta g).2 = length theta) ->
  length (grads st) = length (params st) ->
  train_loop cfg env st batches = Some st_end ->
  forall done_ batch rest,
    batches = done_ ++ batch :: rest ->
    exists st_i st_j,
      train_loop cfg env st done_ = Some st_i /\
      train_step cfg env st_i batch = Some st_j /\
      grads st_j
      = clip_grad_norm_ (grad_norm cfg) (backward env (params st_i) batch) /\
      params st_j
      = (optimizer_step env (optimizer st_i) (params st_i)
           (clip_grad_norm_ (grad_norm cfg)
              (backward env (params st_i) batch))).2 /\
      forall stale,
        length stale = length (grads st_i) ->
        train_step cfg env (with_grads stale st_i) batch = Some st_j.
Proof.
  intros Hback Hopt Hwf Hloop done_ batch rest ->.
  rewrite train_loop_app in Hloop.
  destruct (train_loop cfg env st done_) as [st_i |] eqn:Hdone; [| done].
  cbn [mbind option_bind train_loop] in Hloop.
  destruct (train_step cfg env st_i batch) as [st_j |] eqn:Hstep; [| done].
  exists st_i, st_j. split; [done |]. split; [done |].
  assert (length (grads st_i) = length (backward env (params st_i) batch))
    as Hlen.
  { rewrite Hback. by eapply train_loop_shape. }
  destruct (train_step_grads cfg env st_i st_j batch Hlen Hstep) as [Hg Hp].
  split; [done |]. split; [done |].
  intros stale Hstale. by rewrite train_step_stale.
Qed.

Lemma train_gradients_do_not_accumulate_witness :
  (forall theta batch,
     length (backward toy_trainer theta batch) = length theta) /\
  (forall o theta g,
     length g = length theta ->
     length (optimizer_step toy_trainer o theta g).2 = length theta) /\
  length (grads toy_state) = length (params toy_state) /\
  exists st_end,
    train_loop toy_config toy_trainer toy_state [toy_batch; toy_batch]
    = Some st_end /\
    exists st_i st_j,
      train_loop toy_config toy_trainer toy_state [toy_batch] = Some st_i /\
      train_step toy_config toy_trainer st_i toy_batch = Some st_j /\
      grads st_j
      = clip_grad_norm_ (grad_norm toy_config)
          (backward toy_trainer (params st_i) toy_batch) /\
      params st_j
      = (optimizer_step toy_trainer (optimizer st_i) (params st_i)
           (clip_grad_norm_ (grad_norm toy_config)
              (backward toy_trainer (params st_i) toy_batch))).2 /\
      forall stale,
        length stale = length (grads st_i) ->
        train_step toy_config toy_trainer (with_grads stale st_i) toy_batch
        = Some st_j.
Proof.
  assert (forall theta batch,
            length (backward toy_trainer theta batch) = length theta)
    as Hback by (intros theta batch; apply length_map).
  assert (forall (o : unit) theta g,
            length g = length theta ->
            length (optimizer_step toy_trainer o theta g).2 = length theta)
    as Hopt.
  { intros o theta g Hlen. simpl. rewrite length_zip_with. lia. }
  split; [exact Hback |]. split; [exact Hopt |]. split; [reflexivity |].
  eexists. split; [reflexivity |].
  eapply (train_gradients_do_not_accumulate toy_config toy_trainer toy_state
            _ [toy_batch; toy_batch] Hback Hopt eq_refl eq_refl
            [toy_batch] toy_batch []).
  reflexivity.
Defined.

(** ** Part III. Further properties of the code *)

(** *** [evaluate] *)

Lemma all_counts_accuracy_golds {Pred Gold : Type} (sc : Scorer Pred Gold)
    (decoded : list (Pred * Gold)) :
  pooled_golds (all_counts sc true decoded)
  = pooled_preds (all_counts sc true decoded).
Proof.
  unfold pooled_golds, pooled_preds, all_counts.
  induction decoded as [| [preds golds] decoded IH]; [done |].
  cbn [map list_sum]. unfold batch_counts at 1 3.
  destruct (accuracy_eval sc preds golds) as [bp bc]. cbn [fst snd].
  unfold list_sum in *. cbn [fold_right]. by rewrite IH.
Qed.

Lemma evaluate_cases {Pred Gold : Type} (sc : Scorer Pred Gold)
    (eval_accuracy : bool) (decoded : list (Pred * Gold)) :
  let counts := all_counts sc eval_accuracy decoded in
  let p := micro_prec (Z.of_nat (pooled_preds counts))
                      (Z.of_nat (pooled_corrects counts)) in
  let r := micro_rec (Z.of_nat (pooled_golds counts))
                     (Z.of_nat (pooled_corrects counts)) in
  ((p + r == 0)%Q /\ evaluate sc eval_accuracy decoded = None) \/
  (~ (p + r == 0)%Q /\
   evaluate sc eval_accuracy decoded = Some (p, r, (2 * p * r / (p + r))%Q)).
Proof.
  intros counts p r. unfold evaluate. fold counts.
  rewrite accumulate_pooled. unfold micro_metrics, py_div. fold p r.
  destruct (Qeq_bool (p + r) 0) eqn:Hz.
  - left. split; [by apply Qeq_bool_iff | done].
  - right. split; [by apply Qeq_bool_neq | done].
Qed.

Lemma sane_counts_pooled (counts : list (nat * nat * nat)) :
  sane_counts counts ->
  pooled_corrects counts <= pooled_preds counts /\
  pooled_corrects counts <= pooled_golds counts.
Proof.
  unfold pooled_corrects, pooled_preds, pooled_golds.
  induction 1 as [| [[bp bg] bc] counts [Hp Hg] _ [IHp IHg]]; [done |].
  unfold list_sum in *. cbn [map fold_right fst snd]. lia.
Qed.

Lemma micro_ratio_pos (total count : Z) :
  (0 < count <= total)%Z ->
  (0 < (if (0 <? total)%Z then inject_Z count / inject_Z total else 0) <= 1)%Q.
Proof.
  intros [Hc Ht]. destruct (Z.ltb_spec 0 total) as [Hpos | ?]; [| lia].
  assert (0 < inject_Z total)%Q as HP
    by (change 0%Q with (inject_Z 0); by rewrite <- Zlt_Qlt).
  split.
  - apply Qlt_shift_div_l; [done |]. rewrite Qmult_0_l.
    change 0%Q with (inject_Z 0). by rewrite <- Zlt_Qlt.
  - apply Qle_shift_div_r; [done |]. rewrite Qmult_1_l. by rewrite <- Zle_Qle.
Qed.

Lemma micro_ratio_zero (total : Z) :
  ((if (0 <? total)%Z then inject_Z 0 / inject_Z total else 0) == 0)%Q.
Proof.
  destruct (0 <? total)%Z; [| reflexivity].
  unfold Qdiv. apply Qmult_0_l.
Qed.

(** X1. Under [cfg.eval_accuracy] the gold count of a batch is its
    predicted count (line 214), so the two totals are the same sum and,
    whenever [evaluate] returns, micro precision and micro recall are
    the same number. *)
Theorem evaluate_accuracy_precision_is_recall {Pred Gold : Type}
    (sc : Scorer Pred Gold) (decoded : list (Pred * Gold)) (p r f : Q) :
  evaluate sc true decoded = Some (p, r, f) ->
  pooled_golds (all_counts sc true decoded)
  = pooled_preds (all_counts sc true decoded)
  /\ p = r.
Proof.
  intros Hret. split; [apply all_counts_accuracy_golds |].
  destruct (evaluate_cases sc true decoded) as [[_ Hnone] | [Hnz Hsome]];
    [congruence |].
  rewrite Hsome in Hret. clear Hsome Hnz.
  rewrite all_counts_accuracy_golds in Hret.
  by injection Hret as <- <- _.
Qed.

Lemma evaluate_accuracy_precision_is_recall_witness :
  exists p r f,
    evaluate toy_scorer true toy_decoded = Some (p, r, f) /\
    pooled_golds (all_counts toy_scorer true toy_decoded)
    = pooled_preds (all_counts toy_scorer true toy_decoded)
    /\ p = r.
Proof.
  eexists _, _, _. split; [reflexivity |].
  eapply (evaluate_accuracy_precision_is_recall toy_scorer toy_decoded).
  reflexivity.
Defined.

Lemma sane_metrics_positive {Pred Gold : Type} (sc : Scorer Pred Gold)
    (eval_accuracy : bool) (decoded : list (Pred * Gold)) :
  let counts := all_counts sc eval_accuracy decoded in
  sane_counts counts -> 0 < pooled_corrects counts ->
  (0 < micro_prec (Z.of_nat (pooled_preds counts))
                  (Z.of_nat (pooled_corrects counts)) <= 1)%Q /\
  (0 < micro_rec (Z.of_nat (pooled_golds counts))
                 (Z.of_nat (pooled_corrects counts)) <= 1)%Q.
Proof.
  intros counts Hsane Hpos.
  destruct (sane_counts_pooled counts Hsane) as [HP HG].
  split; apply micro_ratio_pos; lia.
Qed.

(** X2. With a scorer that counts no more correct predictions than
    predictions and than gold items, [evaluate] raises exactly when no
    prediction of the whole data set is correct (an empty data set
    included). *)
Theorem evaluate_raises_iff_nothing_correct {Pred Gold : Type}
    (sc : Scorer Pred Gold) (eval_accuracy : bool)
    (decoded : list (Pred * Gold)) :
  sane_counts (all_counts sc eval_accuracy decoded) ->
  evaluate sc eval_accuracy decoded = None
  <-> pooled_corrects (all_counts sc eval_accuracy decoded) = 0.
Proof.
  intros Hsane.
  destruct (evaluate_cases sc eval_accuracy decoded)
    as [[Hz Hnone] | [Hnz Hsome]].
  - split; [| done]. intros _.
    destruct (Nat.eq_dec (pooled_corrects
                            (all_counts sc eval_accuracy decoded)) 0)
      as [| Hne]; [done |].
    destruct (sane_metrics_positive sc eval_accuracy decoded Hsane)
      as [[Hp _] [Hr _]]; [lia |].
    exfalso. simpl in Hz. Lqa.lra.
  - split; [congruence |]. intros Hzero. exfalso. apply Hnz.
    unfold micro_prec, micro_rec. rewrite Hzero.
    by rewrite !micro_ratio_zero.
Qed.

Lemma evaluate_raises_iff_nothing_correct_witness :
  (sane_counts (all_counts toy_scorer false missed_decoded) /\
   evaluate toy_scorer false missed_decoded = None /\
   (evaluate toy_scorer false missed_decoded = None
    <-> pooled_corrects (all_counts toy_scorer false missed_decoded) = 0))
  /\
  (sane_counts (all_counts toy_scorer false toy_decoded) /\
   pooled_corrects (all_counts toy_scorer false toy_decoded) = 2 /\
   (evaluate toy_scorer false toy_decoded = None
    <-> pooled_corrects (all_counts toy_scorer false toy_decoded) = 0)).
Proof.
  assert (sane_counts (all_counts toy_scorer false missed_decoded))
    as Hmissed.
  { repeat constructor. }
  assert (sane_counts (all_counts toy_scorer false toy_decoded)) as Htoy.
  { repeat constructor. }
  split.
  - split; [exact Hmissed |]. split; [reflexivity |].
    exact (evaluate_raises_iff_nothing_correct toy_scorer false
             missed_decoded Hmissed).
  - split; [exact Htoy |]. split; [reflexivity |].
    exact (evaluate_raises_iff_nothing_correct toy_scorer false toy_decoded
             Htoy).
Defined.

(** X3. With such a scorer, the metrics that [evaluate] returns are
    proper: precision, recall and F1 all lie in (0, 1]. *)
Theorem evaluate_metric_bounds {Pred Gold : Type}
    (sc : Scorer Pred Gold) (eval_accuracy : bool)
    (decoded : list (Pred * Gold)) (p r f : Q) :
  sane_counts (all_counts sc eval_accuracy decoded) ->
  evaluate sc eval_accuracy decoded = Some (p, r, f) ->
  (0 < p <= 1)%Q /\ (0 < r <= 1)%Q /\ (0 < f <= 1)%Q.
Proof.
  intros Hsane Hret.
  destruct (evaluate_cases sc eval_accuracy decoded)
    as [[_ Hnone] | [Hnz Hsome]]; [congruence |].
  rewrite Hsome in Hret. injection Hret as <- <- <-.
  assert (0 < pooled_corrects (all_counts sc eval_accuracy decoded)) as Hpos.
  { destruct (Nat.eq_dec (pooled_corrects
                            (all_counts sc eval_accuracy decoded)) 0)
      as [Hzero |]; [| lia].
    exfalso. apply Hnz. unfold micro_prec, micro_rec. rewrite Hzero.
    by rewrite !micro_ratio_zero. }
  destruct (sane_metrics_positive sc eval_accuracy decoded Hsane Hpos)
    as [Hp Hr].
  revert Hp Hr. clear Hnz Hpos.
  set (p := micro_prec _ _). set (r := micro_rec _ _). clearbody p r.
  intros Hp Hr. split; [done |]. split; [done |].
  assert (0 < p + r)%Q by Lqa.lra.
  split.
  - apply Qlt_shift_div_l; [done |]. Lqa.nra.
  - apply Qle_shift_div_r; [done |]. Lqa.nra.
Qed.

Lemma evaluate_metric_bounds_witness :
  sane_counts (all_counts toy_scorer false toy_decoded) /\
  exists p r f,
    evaluate toy_scorer false toy_decoded = Some (p, r, f) /\
    (0 < p <= 1)%Q /\ (0 < r <= 1)%Q /\ (0 < f <= 1)%Q.
Proof.
  assert (sane_counts (all_counts toy_scorer false toy_decoded)) as Hsane.
  { repeat constructor. }
  split; [exact Hsane |].
  eexists _, _, _. split; [reflexivity |].
  eapply (evaluate_metric_bounds toy_scorer false toy_decoded); [exact Hsane |].
  reflexivity.
Defined.

(** *** [train] *)

Lemma train_step_total_preds {Opt : Type} (cfg : config) (env : Trainer Opt)
    (st st' : train_state Opt) (batch : train_batch) :
  train_step cfg env st batch = Some st' ->
  total_preds st' = total_preds st + numel (batch_x batch).
Proof.
  unfold train_step.
  destruct (get_word_representations _ true _ _ None); [| done].
  cbn [mbind option_bind].
  destruct (get_word_representations _ _ _ _ (shard_batch_size cfg)); [| done].
  cbn [mbind option_bind].
  destruct (representations_loss _ _ _ _); [| done].
  cbn [mbind option_bind].
  destruct (optimizer_step env _ _ _) as [opt1 params1].
  by intros [= <-].
Qed.

Lemma train_loop_total_preds {Opt : Type} (cfg : config) (env : Trainer Opt)
    (batches : list train_batch) (st st' : train_state Opt) :
  train_loop cfg env st batches = Some st' ->
  total_preds st'
  = total_preds st + list_sum (map (fun b => numel (batch_x b)) batches).
Proof.
  revert st. induction batches as [| batch rest IH]; intros st Hloop.
  - injection Hloop as <-. simpl. lia.
  - cbn [train_loop] in Hloop.
    destruct (train_step cfg env st batch) as [st1 |] eqn:Hstep; [| done].
    cbn [mbind option_bind] in Hloop.
    rewrite (IH st1 Hloop), (train_step_total_preds cfg env st st1 batch Hstep).
    unfold list_sum. cbn [map fold_right]. lia.
Qed.

(** X4. [train] fails exactly when an iteration fails or the epoch saw
    no query token at all (the division by [total_preds] that ends it);
    when it returns, [total_preds] is the number of token slots of all
    the batches, padding included. *)
Theorem train_fails_iff {Opt : Type} (cfg : config) (env : Trainer Opt)
    (params0 grads0 : list R) (opt0 : Opt) (batches : list train_batch) :
  let start := TrainState params0 grads0 opt0 (Fin 0%R) 0 in
  let tokens := list_sum (map (fun b => numel (batch_x b)) batches) in
  (train cfg env params0 grads0 opt0 batches = None
   <-> train_loop cfg env start batches = None \/ tokens = 0) /\
  (forall st mean,
     train cfg env params0 grads0 opt0 batches = Some (st, mean) ->
     total_preds st = tokens).
Proof.
  intros start tokens. unfold train. fold start.
  destruct (train_loop cfg env start batches) as [st |] eqn:Hloop;
    cbn [mbind option_bind].
  - pose proof (train_loop_total_preds cfg env batches start st Hloop) as Htot.
    cbn [total_preds start] in Htot. fold tokens in Htot.
    rewrite Nat.add_0_l in Htot. unfold xdiv_nat. rewrite Htot.
    destruct (Nat.eqb_spec tokens 0) as [Hz | Hnz]; cbn [mbind option_bind].
    + split; [| done]. split; [by right | done].
    + split.
      * split; [done |]. intros [? | ?]; done.
      * by intros st' mean [= <- _].
  - split; [| done]. split; [by left | done].
Qed.

Section Clipping.

Local Open Scope R_scope.

Lemma clip_grad_norm_shrinks (max_norm : R) (g : list R) :
  0 <= max_norm ->
  Forall2 (fun a' a => Rabs a' <= Rabs a /\ 0 <= a' * a)
          (clip_grad_norm_ max_norm g) g.
Proof.
  intros Hm. unfold clip_grad_norm_.
  pose proof (sqrt_pos (sumsq g)) as Hn.
  set (n := sqrt (sumsq g)) in *.
  assert (0 < / 10 ^ 6) as Heps by (apply Rinv_0_lt_compat; lra).
  set (eps := / 10 ^ 6) in *.
  set (coef := max_norm / (n + eps)).
  assert (0 <= coef) as Hc.
  { unfold coef. apply Rmult_le_pos; [done |].
    left. apply Rinv_0_lt_compat. lra. }
  destruct (Rlt_dec coef 1) as [Hlt | Hge].
  - clearbody coef. clear -Hc Hlt.
    induction g as [| a g IH]; cbn [map]; constructor; [| done].
    split.
    + rewrite Rabs_mult, (Rabs_pos_eq coef) by done.
      pose proof (Rabs_pos a). nra.
    + replace (coef * a * a) with (coef * (a * a)) by ring.
      apply Rmult_le_pos; [done |]. apply Rle_0_sqr.
  - clear. induction g as [| a g IH]; constructor; [| done].
    split; [apply Rle_refl | apply Rle_0_sqr].
Qed.

End Clipping.

(** X5. With a non-negative [cfg.grad_norm], clipping only shrinks: the
    gradient that an iteration of [train] leaves in the buffers (the one
    the optimizer step used) has, entry by entry, the sign of the
    gradient of the batch and at most its magnitude. *)
Theorem train_step_gradient_shrinks {Opt : Type} (cfg : config)
    (env : Trainer Opt) (st st' : train_state Opt) (batch : train_batch) :
  (0 <= grad_norm cfg)%R ->
  length (grads st) = length (backward env (params st) batch) ->
  train_step cfg env st batch = Some st' ->
  Forall2 (fun g' g => (Rabs g' <= Rabs g)%R /\ (0 <= g' * g)%R)
          (grads st') (backward env (params st) batch).
Proof.
  intros Hm Hlen Hstep.
  destruct (train_step_grads cfg env st st' batch Hlen Hstep) as [-> _].
  by apply clip_grad_norm_shrinks.
Qed.

Lemma train_step_gradient_shrinks_witness :
  (0 <= grad_norm toy_config)%R /\
  length (grads toy_state)
  = length (backward toy_trainer (params toy_state) toy_batch) /\
  exists st',
    train_step toy_config toy_trainer toy_state toy_batch = Some st' /\
    Forall2 (fun g' g => (Rabs g' <= Rabs g)%R /\ (0 <= g' * g)%R)
            (grads st')
            (backward toy_trainer (params toy_state) toy_batch).
Proof.
  assert (0 <= grad_norm toy_config)%R as Hm by (simpl; lra).
  split; [exact Hm |]. split; [reflexivity |].
  eexists. split; [reflexivity |].
  eapply (train_step_gradient_shrinks toy_config toy_trainer toy_state _
            toy_batch); [exact Hm | reflexivity | reflexivity].
Defined.

(** *** [move_to_device] *)

Lemma heap_le_refl (h : heap) : heap_le h h.
Proof. split; [lia | done]. Qed.

Lemma heap_le_trans (h1 h2 h3 : heap) :
  heap_le h1 h2 -> heap_le h2 h3 -> heap_le h1 h3.
Proof.
  intros [Hn1 Ho1] [Hn2 Ho2]. split; [lia |]. by etrans.
Qed.

Lemma alloc_spec (h : heap) (o : pyobj) :
  heap_wf h ->
  heap_wf (alloc h o).1 /\ heap_le h (alloc h o).1 /\
  objs (alloc h o).1 !! (alloc h o).2 = Some o /\ (alloc h o).2 = next h.
Proof.
  intros Hwf. unfold alloc. cbn [fst snd objs next].
  split; [| split; [| split]].
  - intros a Ha. cbn [objs next] in *.
    rewrite lookup_insert_ne by lia. apply Hwf. lia.
  - split; cbn [objs next]; [lia |].
    apply insert_subseteq. apply Hwf. lia.
  - apply lookup_insert_eq.
  - done.
Qed.

Lemma on_device_mono (depth : nat) (h h' : heap) (r : ref) (dev : device) :
  heap_le h h' -> on_device depth h r dev -> on_device depth h' r dev.
Proof.
  intros [_ Hsub]. revert r. induction depth as [| depth IH]; intros r; [done |].
  cbn [on_device]. destruct (objs h !! r) as [o |] eqn:Hr; [| done].
  rewrite (lookup_weaken _ _ _ _ Hr Hsub).
  destruct o; try done;
    intros Hall; (eapply Forall_impl; [exact Hall |]); intros; by apply IH.
Qed.

Lemma map_heap_inv (f : heap -> ref -> option (heap * ref))
    (Q : heap -> ref -> Prop) :
  (forall h h' r, heap_le h h' -> Q h r -> Q h' r) ->
  (forall h r h' r',
     heap_wf h -> f h r = Some (h', r') ->
     heap_wf h' /\ heap_le h h' /\ Q h' r') ->
  forall items h h' items',
    heap_wf h -> map_heap f h items = Some (h', items') ->
    heap_wf h' /\ heap_le h h' /\ length items' = length items /\
    Forall (Q h') items'.
Proof.
  intros Hmono Hf. induction items as [| item rest IH];
    intros h h' items' Hwf Hmap.
  - injection Hmap as <- <-. split; [done |]. split; [apply heap_le_refl |].
    split; [done | constructor].
  - cbn [map_heap] in Hmap.
    destruct (f h item) as [[h1 item1] |] eqn:Hitem; [| done].
    cbn [mbind option_bind] in Hmap.
    destruct (map_heap f h1 rest) as [[h2 rest1] |] eqn:Hrest; [| done].
    cbn [mbind option_bind] in Hmap. injection Hmap as <- <-.
    destruct (Hf h item h1 item1 Hwf Hitem) as (Hwf1 & Hle1 & HQ1).
    destruct (IH h1 h2 rest1 Hwf1 Hrest) as (Hwf2 & Hle2 & Hlen & HQ2).
    split; [done |]. split; [by eapply heap_le_trans |].
    split; [cbn [length]; by rewrite Hlen |].
    constructor; [by eapply Hmono | done].
Qed.

Lemma Forall_combine_snd {A B : Type} (P : B -> Prop) (ks : list A)
    (vs : list B) :
  Forall P vs -> Forall (fun kv => P kv.2) (combine ks vs).
Proof.
  intros Hvs. revert ks. induction Hvs as [| v vs Hv _ IH]; intros [| k ks];
    try constructor; [done | apply IH].
Qed.

Lemma map_fst_combine {A B : Type} (ks : list A) (vs : list B) :
  length vs = length ks -> map fst (combine ks vs) = ks.
Proof.
  revert vs. induction ks as [| k ks IH]; intros [| v vs] Hlen; try done.
  cbn [combine map fst]. f_equal. apply IH. by injection Hlen.
Qed.

Section Transfer.

Variable cuda_device : device.
Hypothesis not_host : cuda_device <> Cpu.

Let transferred (h : heap) (r : ref) : Prop :=
  forall depth, on_device depth h r cuda_device.

Lemma transferred_mono (h h' : heap) (r : ref) :
  heap_le h h' -> transferred h r -> transferred h' r.
Proof. intros Hle Hr depth. by eapply on_device_mono. Qed.

(** What rebuilding a container around transferred entries gives. *)
Lemma rebuilt_container (h h1 h' : heap) (r : ref) (o' : pyobj)
    (entries : list ref) :
  alloc h1 o' = (h', r) ->
  heap_wf h -> heap_wf h1 -> heap_le h h1 ->
  Forall (transferred h1) entries ->
  (forall depth,
     Forall (fun e => on_device depth h' e cuda_device) entries ->
     objs h' !! r = Some o' ->
     on_device (S depth) h' r cuda_device) ->
  heap_wf h' /\ heap_le h h' /\ transferred h' r /\
  objs h' !! r = Some o' /\ objs h !! r = None.
Proof.
  intros Heq Hwf Hwf1 Hle Hall Hdepth.
  destruct (alloc_spec h1 o' Hwf1) as (Hwf2 & Hle2 & Hlook & Hr).
  rewrite Heq in Hwf2, Hle2, Hlook, Hr. cbn [fst snd] in *.
  split; [done |]. split; [by eapply heap_le_trans |].
  split; [| split; [done |]].
  - intros [| depth]; [done |]. apply Hdepth; [| done].
    eapply Forall_impl; [exact Hall |]. intros e He.
    eapply on_device_mono; [exact Hle2 | apply He].
  - rewrite Hr. apply Hwf. destruct Hle. lia.
Qed.

Lemma move_to_device_inv (fuel : nat) :
  forall h obj h' r,
    heap_wf h -> move_to_device fuel h obj cuda_device = Some (h', r) ->
    heap_wf h' /\ heap_le h h' /\ transferred h' r /\
    forall o, objs h !! obj = Some o ->
      exists o', objs h' !! r = Some o' /\
                 same_container cuda_device o o' /\
                 (is_container o = true -> o <> PyTuple [] ->
                  objs h !! r = None) /\
                 (o = PyTuple [] -> h' = h /\ r = obj).
Proof.
  induction fuel as [| fuel IH]; intros h obj h' r Hwf Hmove; [done |].
  cbn [move_to_device] in Hmove.
  destruct (device_eqb cuda_device Cpu) eqn:Hdev.
  { by apply device_eqb_eq in Hdev. }
  assert (forall h0 r0 h1 r1,
            heap_wf h0 ->
            move_to_device fuel h0 r0 cuda_device = Some (h1, r1) ->
            heap_wf h1 /\ heap_le h0 h1 /\ transferred h1 r1) as Hrec.
  { intros h0 r0 h1 r1 Hwf0 Hcall.
    destruct (IH h0 r0 h1 r1 Hwf0 Hcall) as (? & ? & ? & _). done. }
  pose proof (map_heap_inv
                (fun h0 item => move_to_device fuel h0 item cuda_device)
                transferred transferred_mono Hrec) as Hmap.
  destruct (objs h !! obj) as [o |] eqn:Hobj; [| done].
  destruct o as [dev storage | items | elems | cls elems | elems | repr].
  - (* tensor *)
    unfold tensor_cuda in Hmove.
    destruct (device_eqb dev cuda_device) eqn:Hon.
    + apply device_eqb_eq in Hon as ->. injection Hmove as <- <-.
      split; [done |]. split; [apply heap_le_refl |]. split.
      * intros [| depth]; [done |]. cbn [on_device]. by rewrite Hobj.
      * intros o [= <-]. exists (PyTensor cuda_device storage).
        split; [done |]. by repeat split.
    + assert (alloc h (PyTensor cuda_device storage) = (h', r)) as Heq
        by congruence.
      destruct (alloc_spec h (PyTensor cuda_device storage) Hwf)
        as (Hwf2 & Hle2 & Hlook & Hfresh).
      rewrite Heq in Hwf2, Hle2, Hlook, Hfresh. cbn [fst snd] in *.
      split; [done |]. split; [done |]. split.
      * intros [| depth]; [done |]. cbn [on_device]. by rewrite Hlook.
      * intros o [= <-]. exists (PyTensor cuda_device storage).
        split; [done |]. by repeat split.
  - (* dict *)
    destruct (map_heap _ h (map snd items)) as [[h1 values] |] eqn:Hvals;
      [| done].
    cbn [mbind option_bind] in Hmove.
    assert (alloc h1 (PyDict (combine (map fst items) values)) = (h', r))
      as Heq by congruence.
    destruct (Hmap _ _ _ _ Hwf Hvals) as (Hwf1 & Hle1 & Hlen & Hall).
    rewrite length_map in Hlen.
    destruct (rebuilt_container h h1 h' r _ values Heq Hwf Hwf1 Hle1 Hall)
      as (Hwf2 & Hle2 & Htr & Hlook & Hfresh).
    { intros depth Hd Hl. cbn [on_device]. rewrite Hl.
      by apply (Forall_combine_snd
                  (fun e => on_device depth h' e cuda_device)). }
    split; [done |]. split; [done |]. split; [done |].
    intros o [= <-]. eexists. split; [exact Hlook |].
    split; [| by split].
    cbn [same_container]. apply map_fst_combine. by rewrite length_map.
  - (* list *)
    destruct (map_heap _ h elems) as [[h1 elems'] |] eqn:Hvals; [| done].
    cbn [mbind option_bind] in Hmove.
    assert (alloc h1 (PyList elems') = (h', r)) as Heq by congruence.
    destruct (Hmap _ _ _ _ Hwf Hvals) as (Hwf1 & Hle1 & Hlen & Hall).
    destruct (rebuilt_container h h1 h' r _ elems' Heq Hwf Hwf1 Hle1 Hall)
      as (Hwf2 & Hle2 & Htr & Hlook & Hfresh).
    { intros depth Hd Hl. cbn [on_device]. by rewrite Hl. }
    split; [done |]. split; [done |]. split; [done |].
    intros o [= <-]. eexists. split; [exact Hlook |]. by repeat split.
  - (* named tuple *)
    destruct (map_heap _ h elems) as [[h1 elems'] |] eqn:Hvals; [| done].
    cbn [mbind option_bind] in Hmove.
    assert (alloc h1 (PyNamedTuple cls elems') = (h', r)) as Heq
      by congruence.
    destruct (Hmap _ _ _ _ Hwf Hvals) as (Hwf1 & Hle1 & Hlen & Hall).
    destruct (rebuilt_container h h1 h' r _ elems' Heq Hwf Hwf1 Hle1 Hall)
      as (Hwf2 & Hle2 & Htr & Hlook & Hfresh).
    { intros depth Hd Hl. cbn [on_device]. by rewrite Hl. }
    split; [done |]. split; [done |]. split; [done |].
    intros o [= <-]. eexists. split; [exact Hlook |]. by repeat split.
  - (* tuple *)
    destruct (map_heap _ h elems) as [[h1 elems'] |] eqn:Hvals; [| done].
    cbn [mbind option_bind] in Hmove.
    destruct (Hmap _ _ _ _ Hwf Hvals) as (Hwf1 & Hle1 & Hlen & Hall).
    destruct elems' as [| e elems'].
    + (* the empty tuple *)
      destruct elems; [| done]. cbn [map_heap] in Hvals.
      injection Hvals as <-. injection Hmove as <- <-.
      split; [done |]. split; [apply heap_le_refl |]. split.
      * intros [| depth]; [done |]. cbn [on_device]. by rewrite Hobj.
      * intros o [= <-]. exists (PyTuple []). split; [done |].
        by repeat split.
    + assert (alloc h1 (PyTuple (e :: elems')) = (h', r)) as Heq
        by congruence.
      destruct (rebuilt_container h h1 h' r _ (e :: elems') Heq Hwf Hwf1
                  Hle1 Hall)
        as (Hwf2 & Hle2 & Htr & Hlook & Hfresh).
      { intros depth Hd Hl. cbn [on_device]. by rewrite Hl. }
      split; [done |]. split; [done |]. split; [done |].
      intros o [= <-]. eexists. split; [exact Hlook |].
      split; [done |]. split; [done |]. intros [= ->]. done.
  - (* any other object *)
    injection Hmove as <- <-.
    split; [done |]. split; [apply heap_le_refl |]. split.
    + intros [| depth]; [done |]. cbn [on_device]. by rewrite Hobj.
    + intros o [= <-]. exists (Opaque repr). split; [done |].
      by repeat split.
Qed.

Lemma finite_depth_mono (n : nat) (h h' : heap) (r : ref) :
  heap_le h h' -> finite_depth n h r -> finite_depth n h' r.
Proof.
  intros [_ Hsub]. revert r. induction n as [| n IH]; intros r; [done |].
  cbn [finite_depth]. destruct (objs h !! r) as [o |] eqn:Hr; [| done].
  rewrite (lookup_weaken _ _ _ _ Hr Hsub). intros Hall.
  eapply Forall_impl; [exact Hall |]. intros c Hc. by apply IH.
Qed.

Lemma map_heap_total (f : heap -> ref -> option (heap * ref))
    (P : heap -> ref -> Prop) :
  (forall h h' r, heap_le h h' -> P h r -> P h' r) ->
  (forall h r,
     heap_wf h -> P h r ->
     exists h' r', f h r = Some (h', r') /\ heap_wf h' /\ heap_le h h') ->
  forall items h,
    heap_wf h -> Forall (P h) items ->
    exists h' items', map_heap f h items = Some (h', items').
Proof.
  intros Hmono Hf. induction items as [| item rest IH]; intros h Hwf Hall.
  - by exists h, [].
  - inversion Hall as [| ? ? Hitem Hrest]; subst.
    destruct (Hf h item Hwf Hitem) as (h1 & item1 & Hcall & Hwf1 & Hle1).
    destruct (IH h1 Hwf1) as (h2 & rest1 & Hmap).
    { eapply Forall_impl; [exact Hrest |]. intros c Hc. by eapply Hmono. }
    exists h2, (item1 :: rest1). cbn [map_heap]. rewrite Hcall.
    cbn [mbind option_bind]. by rewrite Hmap.
Qed.

(** A structure nested no deeper than the recursion limit is
    transferred: the call returns. *)
Lemma move_to_device_total (fuel : nat) :
  forall h obj,
    heap_wf h -> finite_depth fuel h obj ->
    exists h' r, move_to_device fuel h obj cuda_device = Some (h', r).
Proof.
  induction fuel as [| fuel IH]; intros h obj Hwf Hdepth; [done |].
  cbn [finite_depth] in Hdepth. cbn [move_to_device].
  destruct (device_eqb cuda_device Cpu) eqn:Hdev.
  { by apply device_eqb_eq in Hdev. }
  destruct (objs h !! obj) as [o |] eqn:Hobj; [| done].
  assert (forall items h0,
            heap_wf h0 -> Forall (finite_depth fuel h0) items ->
            exists h1 items',
              map_heap (fun h' item =>
                          move_to_device fuel h' item cuda_device)
                       h0 items = Some (h1, items')) as Hmap.
  { apply (map_heap_total _ (finite_depth fuel)).
    - intros h0 h1 r. apply finite_depth_mono.
    - intros h0 r Hwf0 Hr. destruct (IH h0 r Hwf0 Hr) as (h1 & r1 & Hcall).
      exists h1, r1. split; [done |].
      by destruct (move_to_device_inv fuel h0 r h1 r1 Hwf0 Hcall)
        as (? & ? & _). }
  assert (forall p : heap * ref,
            exists h' r, Some p = Some (h', r)) as Hpair.
  { intros [h1 r1]. by exists h1, r1. }
  destruct o as [dev storage | items | elems | cls elems | elems | repr];
    cbn [children] in Hdepth; try apply Hpair;
    destruct (Hmap _ h Hwf Hdepth) as (h1 & elems' & ->);
    cbn [mbind option_bind]; apply Hpair.
Qed.

End Transfer.

Lemma tuple_heap_wf : heap_wf tuple_heap.
Proof.
  intros a Ha. unfold tuple_heap in *. cbn [objs next] in *.
  rewrite !lookup_insert_ne by lia. apply lookup_empty.
Qed.

Lemma sample_heap_wf : heap_wf sample_heap.
Proof.
  intros a Ha. unfold sample_heap in *. cbn [objs next] in *.
  rewrite !lookup_insert_ne by lia. apply lookup_empty.
Qed.

(** X6. [move_to_device] never changes or removes an object of the
    store it is given: whatever it builds is allocated beside the input
    structure, which stays as it was. *)
Theorem move_to_device_frame (fuel : nat) (h h' : heap) (obj r : ref)
    (cuda_device : device) :
  heap_wf h -> move_to_device fuel h obj cuda_device = Some (h', r) ->
  heap_wf h' /\
  forall a o, objs h !! a = Some o -> objs h' !! a = Some o.
Proof.
  intros Hwf Hmove. destruct cuda_device as [| index].
  - destruct fuel; [done |]. by injection Hmove as <- <-.
  - destruct (move_to_device_inv (Cuda index) ltac:(done) fuel h obj h' r
                Hwf Hmove) as (Hwf' & [_ Hsub] & _).
    split; [done |]. intros a o Ha. by eapply lookup_weaken.
Qed.

Lemma move_to_device_frame_witness :
  heap_wf sample_heap /\
  exists h' r,
    move_to_device 2 sample_heap 2 (Cuda 0) = Some (h', r) /\
    heap_wf h' /\
    forall a o, objs sample_heap !! a = Some o -> objs h' !! a = Some o.
Proof.
  split; [exact sample_heap_wf |].
  eexists _, _. split; [reflexivity |].
  eapply (move_to_device_frame 2 sample_heap _ 2 _ (Cuda 0));
    [exact sample_heap_wf | reflexivity].
Defined.

(** X7. A transfer to an accelerator of a structure nested no deeper
    than the recursion limit returns, and every tensor that the result
    reaches through dict values, list entries and tuple entries, however
    deep, is on that device. *)
Theorem move_to_device_all_tensors_moved (fuel : nat) (h : heap)
    (obj : ref) (cuda_device : device) :
  heap_wf h -> cuda_device <> Cpu -> finite_depth fuel h obj ->
  exists h' r,
    move_to_device fuel h obj cuda_device = Some (h', r) /\
    forall depth, on_device depth h' r cuda_device.
Proof.
  intros Hwf Hdev Hdepth.
  destruct (move_to_device_total cuda_device Hdev fuel h obj Hwf Hdepth)
    as (h' & r & Hmove).
  exists h', r. split; [done |].
  by destruct (move_to_device_inv cuda_device Hdev fuel h obj h' r Hwf Hmove)
    as (_ & _ & Htr & _).
Qed.

Lemma move_to_device_all_tensors_moved_witness :
  heap_wf sample_heap /\ Cuda 0 <> Cpu /\ finite_depth 2 sample_heap 2 /\
  exists h' r,
    move_to_device 2 sample_heap 2 (Cuda 0) = Some (h', r) /\
    forall depth, on_device depth h' r (Cuda 0).
Proof.
  assert (finite_depth 2 sample_heap 2) as Hdepth.
  { vm_compute. repeat constructor. }
  split; [exact sample_heap_wf |]. split; [discriminate |].
  split; [exact Hdepth |].
  exact (move_to_device_all_tensors_moved 2 sample_heap 2 (Cuda 0)
           sample_heap_wf ltac:(discriminate) Hdepth).
Defined.

(** X8. A transfer to an accelerator of a structure nested no deeper
    than the recursion limit returns an object of the same shape: a dict
    comes back as a dict with the same keys in the same order, a list or
    tuple with as many entries, a named tuple of the same class, a
    tensor with the same storage on the device, another object as
    itself. A container comes back as a new object, never as the one
    passed in, except the empty tuple, which comes back as itself and
    leaves the store as it was. *)
Theorem move_to_device_keeps_structure (fuel : nat) (h : heap)
    (obj : ref) (cuda_device : device) (o : pyobj) :
  heap_wf h -> cuda_device <> Cpu -> finite_depth fuel h obj ->
  objs h !! obj = Some o ->
  exists h' r o',
    move_to_device fuel h obj cuda_device = Some (h', r) /\
    objs h' !! r = Some o' /\ same_container cuda_device o o' /\
    (is_container o = true -> o <> PyTuple [] -> objs h !! r = None) /\
    (o = PyTuple [] -> h' = h /\ r = obj).
Proof.
  intros Hwf Hdev Hdepth Hobj.
  destruct (move_to_device_total cuda_device Hdev fuel h obj Hwf Hdepth)
    as (h' & r & Hmove).
  destruct (move_to_device_inv cuda_device Hdev fuel h obj h' r Hwf Hmove)
    as (_ & _ & _ & Hshape).
  destruct (Hshape o Hobj) as (o' & Hshape').
  by exists h', r, o'.
Qed.

Lemma move_to_device_keeps_structure_witness :
  heap_wf tuple_heap /\ Cuda 0 <> Cpu /\ finite_depth 3 tuple_heap 3 /\
  objs tuple_heap !! 3 = Some (PyList [2; 1; 0]) /\
  exists h' r o',
    move_to_device 3 tuple_heap 3 (Cuda 0) = Some (h', r) /\
    objs h' !! r = Some o' /\ same_container (Cuda 0) (PyList [2; 1; 0]) o' /\
    (is_container (PyList [2; 1; 0]) = true ->
     PyList [2; 1; 0] <> PyTuple [] -> objs tuple_heap !! r = None) /\
    (PyList [2; 1; 0] = PyTuple [] -> h' = tuple_heap /\ r = 3).
Proof.
  assert (finite_depth 3 tuple_heap 3) as Hdepth.
  { vm_compute. repeat constructor. }
  split; [exact tuple_heap_wf |]. split; [discriminate |].
  split; [exact Hdepth |]. split; [reflexivity |].
  exact (move_to_device_keeps_structure 3 tuple_heap 3 (Cuda 0)
           (PyList [2; 1; 0]) tuple_heap_wf ltac:(discriminate) Hdepth
           eq_refl).
Defined.

(** X9. [move_to_device] follows references without remembering where it
    has been: on a list that is its own first entry a transfer to an
    accelerator returns at no recursion depth. *)
Theorem move_to_device_cyclic_list (h : heap) (r : ref) (rest : list ref)
    (cuda_device : device) (fuel : nat) :
  objs h !! r = Some (PyList (r :: rest)) -> cuda_device <> Cpu ->
  move_to_device fuel h r cuda_device = None.
Proof.
  intros Hr Hdev. induction fuel as [| fuel IH]; [done |].
  cbn [move_to_device].
  destruct (device_eqb cuda_device Cpu) eqn:Heq.
  { by apply device_eqb_eq in Heq. }
  rewrite Hr. cbn [map_heap]. by rewrite IH.
Qed.

Lemma move_to_device_cyclic_list_witness :
  objs cyclic_heap !! 0 = Some (PyList [0]) /\ Cuda 0 <> Cpu /\
  move_to_device 1000 cyclic_heap 0 (Cuda 0) = None.
Proof.
  split; [reflexivity |]. split; [discriminate |].
  apply (move_to_device_cyclic_list cyclic_heap 0 [] (Cuda 0) 1000);
    [reflexivity | discriminate].
Defined.

(** *** [get_batch_loss] *)

Section LossEdges.

Local Open Scope R_scope.

Variables (H N : nat) (query neighbor : list R) (i : nat).





End LossEdges.





Lemma gather_row_out_of_range {A : Type} (row : list A) (idx : list Z) :
  Exists (fun t => (t < 0 \/ Z.of_nat (length row) <= t)%Z) idx ->
  gather_row row idx = None.
Proof.
  intros Hbad. unfold gather_row. apply mapM_None_2.
  eapply Exists_impl; [exact Hbad |]. intros t Ht. simpl in *.
  destruct (Z.leb_spec 0 t); [| done].
  apply lookup_ge_None_2. lia.
Qed.

(** X12. A target index below 0 or above the sentinel [N] makes
    [get_batch_loss] fail (the index error of [gather]), wherever in the
    batch it stands. *)
Theorem get_batch_loss_index_error (b n : tensor R) (targets : tensor Z)
    (Bq Sq H N M : nat) :
  shape b = [Bq; Sq; H] -> 0 < H ->
  length (data b) = Bq * Sq * H -> length (data n) = N * H ->
  length (data targets) = Bq * Sq * M ->
  Exists (fun t => (t < 0 \/ Z.of_nat N < t)%Z) (data targets) ->
  get_batch_loss b n targets = None.
Proof.
  intros Hshape HH Hb Hn Ht Hbad.
  apply Exists_exists in Hbad as (t & [pos Hpos]%list_elem_of_lookup & Hbad).
  pose proof (lookup_lt_Some _ _ _ Hpos) as Hlt. rewrite Ht in Hlt.
  assert (0 < M) as HM by nia.
  assert (0 < Bq * Sq) as HP by nia.
  unfold get_batch_loss.
  rewrite (raw_scores_by_index b n Bq Sq H N) by done.
  cbn [mbind option_bind]. rewrite !map_map.
  rewrite length_map, length_seq, replicate_as_map, zip_with_map_seq.
  rewrite length_map, length_seq.
  rewrite (view_rows_rows targets (Bq * Sq) M) by done.
  cbn [mbind option_bind]. unfold gather, rows_of.
  rewrite !length_map, length_seq, Nat.leb_refl, zip_with_map_seq.
  rewrite mapM_None_2; [done |].
  apply Exists_exists. eexists. split.
  - apply list_elem_of_fmap. exists (pos / M). split; [reflexivity |].
    apply elem_of_seq. split; [lia |]. simpl.
    apply Nat.Div0.div_lt_upper_bound. lia.
  - simpl. apply gather_row_out_of_range.
    apply Exists_exists. exists t. split.
    + apply list_elem_of_lookup. exists (pos mod M).
      rewrite lookup_take_lt by (apply Nat.mod_upper_bound; lia).
      rewrite lookup_drop.
      by rewrite (Nat.mul_comm (pos / M) M), <- Nat.div_mod_eq.
    + rewrite length_app. unfold log_softmax.
      rewrite !length_map, length_seq. simpl. lia.
Qed.

Lemma get_batch_loss_index_error_witness :
  shape one_query = [1; 1; 1] /\ 0 < 1 /\
  length (data one_query) = 1 * 1 * 1 /\
  length (data one_neighbor) = 1 * 1 /\
  length (data overflowing_targets) = 1 * 1 * 2 /\
  Exists (fun t => (t < 0 \/ Z.of_nat 1 < t)%Z) (data overflowing_targets) /\
  get_batch_loss one_query one_neighbor overflowing_targets = None.
Proof.
  assert (Exists (fun t => (t < 0 \/ Z.of_nat 1 < t)%Z)
                 (data overflowing_targets)) as Hbad.
  { right. left. simpl. lia. }
  repeat (split; [first [reflexivity | lia | assumption] |]).
  apply (get_batch_loss_index_error one_query one_neighbor
           overflowing_targets 1 1 1 1 2);
    first [reflexivity | lia | assumption].
Defined.

(** *** [get_batch_predictions] *)

(** X13. With an empty tag-to-mask table [get_batch_predictions] fails
    on every input (there is nothing to stack), before any index is
    looked up. *)
Theorem get_batch_predictions_empty_table {Tag : Type} (b n : tensor R) :
  get_batch_predictions b n ([] : list (Tag * tensor xreal)) = None.
Proof.
  unfold get_batch_predictions.
  destruct (shape b) as [| B [| S [| H [| ? ?]]]]; try done.
  destruct (view_cols b H); [| done].
  destruct (view_cols n H); [| done]. cbn [mbind option_bind].
  by destruct (mat_mul _ _).
Qed.

Lemma xgt_irrefl (a : xreal) : xgt a a = false.
Proof.
  destruct a; simpl; try done. destruct (Rlt_dec r r); [lra | done].
Qed.

Lemma xgt_above (x best y : xreal) :
  xgt x best = true -> xgt y best = false ->
  xgt y x = false /\ xgt x y = true.
Proof.
  destruct x, best, y; simpl; repeat destruct (Rlt_dec _ _);
    intros; try done; lra.
Qed.

Lemma argmax_from_spec (l pre : list xreal) (best_i : nat) (best : xreal) :
  pre !! best_i = Some best ->
  (forall j x, pre !! j = Some x -> xgt x best = false) ->
  (forall j x, j < best_i -> pre !! j = Some x -> xgt best x = true) ->
  exists v,
    (pre ++ l) !! argmax_from best_i best (length pre) l = Some v /\
    (forall j x, (pre ++ l) !! j = Some x -> xgt x v = false) /\
    (forall j x, j < argmax_from best_i best (length pre) l ->
                 (pre ++ l) !! j = Some x -> xgt v x = true).
Proof.
  revert pre best_i best. induction l as [| x l IH];
    intros pre best_i best Hbest Hmax Hfirst.
  - cbn [argmax_from]. rewrite app_nil_r. by exists best.
  - cbn [argmax_from].
    replace (pre ++ x :: l) with ((pre ++ [x]) ++ l) by by rewrite <- app_assoc.
    replace (S (length pre)) with (length (pre ++ [x]))
      by (rewrite length_app; simpl; lia).
    destruct (xgt x best) eqn:Hx.
    + apply IH.
      * by rewrite lookup_app_r, Nat.sub_diag.
      * intros j y Hj. apply lookup_app_Some in Hj as [Hj | [_ Hj]].
        -- by destruct (xgt_above x best y Hx (Hmax j y Hj)).
        -- apply list_lookup_singleton_Some in Hj as [_ <-].
           apply xgt_irrefl.
      * intros j y Hlt Hj. rewrite lookup_app_l in Hj by done.
        by destruct (xgt_above x best y Hx (Hmax j y Hj)).
    + apply IH.
      * rewrite lookup_app_l; [done |]. by eapply lookup_lt_Some.
      * intros j y Hj. apply lookup_app_Some in Hj as [Hj | [_ Hj]].
        -- by eapply Hmax.
        -- by apply list_lookup_singleton_Some in Hj as [_ <-].
      * intros j y Hlt Hj.
        rewrite lookup_app_l in Hj
          by (pose proof (lookup_lt_Some _ _ _ Hbest); lia).
        by eapply Hfirst.
Qed.

(** [argmax] returns the first of the greatest entries. *)
Lemma argmax_spec (l : list xreal) :
  l <> [] ->
  exists v,
    l !! argmax l = Some v /\
    (forall j x, l !! j = Some x -> xgt x v = false) /\
    (forall j x, j < argmax l -> l !! j = Some x -> xgt v x = true).
Proof.
  destruct l as [| x l]; [done |]. intros _. unfold argmax.
  apply (argmax_from_spec l [x] 0 x).
  - done.
  - intros j y Hj. apply list_lookup_singleton_Some in Hj as [_ <-].
    apply xgt_irrefl.
  - intros j y Hlt. lia.
Qed.

Lemma nth_map_seq {A : Type} (f : nat -> A) (d : A) (n i : nat) :
  i < n -> nth i (map f (seq 0 n)) d = f i.
Proof.
  intros Hi. rewrite nth_lookup.
  change (map f (seq 0 n)) with (f <$> seq 0 n).
  by rewrite list_lookup_fmap, lookup_seq_lt.
Qed.

Lemma broadcast_index (m i : nat) : i < m -> (if m =? 1 then 0 else i) = i.
Proof. intros Hi. destruct (Nat.eqb_spec m 1); [lia | done]. Qed.

(** The log-softmax matrix of the decoder, entry by entry. *)
Lemma decoder_scores_by_index (b n : tensor R) (B S H N : nat) :
  shape b = [B; S; H] -> 0 < H ->
  length (data b) = B * S * H -> length (data n) = N * H ->
  map log_softmax
      (map (fun qrow => map (dot qrow) (rows_of N H (data n)))
           (rows_of (B * S) H (data b)))
  = map (fun i => map (log_prob_at H N (data b) (data n) i) (seq 0 N))
        (seq 0 (B * S)).
Proof.
  intros Hshape HH Hb Hn.
  pose proof (raw_scores_by_index b n B S H N Hshape HH Hb Hn) as Hraw.
  unfold raw_scores in Hraw. rewrite Hshape in Hraw.
  rewrite (view_cols_rows b (B * S) H), (view_cols_rows n N H) in Hraw
    by done.
  cbn [mbind option_bind] in Hraw.
  rewrite mat_mul_transpose in Hraw by (done || apply rows_of_lengths; lia).
  injection Hraw as ->. rewrite map_map. apply map_ext. intros i.
  unfold log_softmax. by rewrite !map_map.
Qed.

(** The masked scores of one tag, entry by entry. *)
Lemma tag_scores_by_index (H N P : nat) (query neighbor : list R)
    (mask : tensor xreal) :
  shape mask = [P; N] ->
  (masked ← broadcast_add P N
              (map (fun i => map (log_prob_at H N query neighbor i) (seq 0 N))
                   (seq 0 P)) mask;
   Some (map logsumexp masked))
  = Some (map (tag_score H N query neighbor (data mask)) (seq 0 P)).
Proof.
  intros Hshape. unfold broadcast_add, broadcast_dim. rewrite Hshape.
  cbn [mbind option_bind]. rewrite !Nat.eqb_refl. cbn [mbind option_bind].
  f_equal. rewrite map_map. apply map_seq_ext. intros i Hi.
  unfold tag_score. f_equal. apply map_seq_ext. intros j Hj.
  rewrite !broadcast_index by lia.
  rewrite (nth_map_seq _ [] P i) by lia.
  by rewrite (nth_map_seq _ 0%R N j) by lia.
Qed.

(** The decoder, entry by entry: the index that is looked up for query
    token [p] is the argmax of the tag scores of [p]. *)
Lemma get_batch_predictions_by_index {Tag : Type} (b n : tensor R)
    (tag_to_mask : list (Tag * tensor xreal)) (B S H N : nat) :
  shape b = [B; S; H] -> 0 < H ->
  length (data b) = B * S * H -> length (data n) = N * H ->
  tag_to_mask <> [] ->
  Forall (fun tm => shape tm.2 = [B * S; N]) tag_to_mask ->
  get_batch_predictions b n tag_to_mask
  = mapM (mapM (fun index =>
                  (map_seq 0 (map fst tag_to_mask) : gmap nat Tag) !! index))
         (rows_of B S
            (map (fun p =>
                    argmax (map (fun tm =>
                                   tag_score H N (data b) (data n)
                                             (data tm.2) p) tag_to_mask))
                 (seq 0 (B * S)))).
Proof.
  intros Hshape HH Hb Hn Hne Hmasks. unfold get_batch_predictions.
  rewrite Hshape.
  rewrite (view_cols_rows b (B * S) H), (view_cols_rows n N H) by done.
  cbn [mbind option_bind].
  rewrite mat_mul_transpose by (done || apply rows_of_lengths; lia).
  cbn [mbind option_bind]. rewrite !length_rows_of.
  rewrite (decoder_scores_by_index b n B S H N) by done.
  rewrite (mapM_map_Some _
             (fun tm => map (tag_score H N (data b) (data n) (data tm.2))
                            (seq 0 (B * S)))).
  2:{ intros [tag mask] Hin%list_elem_of_In.
      rewrite Forall_forall in Hmasks.
      by apply tag_scores_by_index, (Hmasks (tag, mask)). }
  cbn [mbind option_bind].
  rewrite (torch_stack_same_length _ (B * S)).
  2:{ by destruct tag_to_mask. }
  2:{ apply Forall_fmap, Forall_forall. intros tm _. simpl.
      by rewrite length_map, length_seq. }
  cbn [mbind option_bind]. unfold argmax_dim0, view2.
  assert (length (hd [] (map (fun tm : Tag * tensor xreal =>
                                map (tag_score H N (data b) (data n)
                                               (data tm.2))
                                    (seq 0 (B * S))) tag_to_mask))
          = B * S) as ->.
  { destruct tag_to_mask as [| tm rest]; [done |].
    cbn [map hd]. by rewrite length_map, length_seq. }
  rewrite length_map, length_seq, Nat.eqb_refl. cbn [mbind option_bind].
  do 2 f_equal. apply map_seq_ext. intros p Hp. f_equal.
  rewrite map_map. apply map_ext. intros tm.
  apply nth_map_seq. lia.
Qed.

(** The decoded tag of a query token belongs to the first table entry
    of greatest score. *)
Lemma decoded_tag_is_first_best {Tag : Type} (b n : tensor R)
    (tag_to_mask : list (Tag * tensor xreal)) (B S H N : nat) :
  shape b = [B; S; H] -> 0 < H ->
  length (data b) = B * S * H -> length (data n) = N * H ->
  tag_to_mask <> [] ->
  Forall (fun tm => shape tm.2 = [B * S; N]) tag_to_mask ->
  exists preds,
    get_batch_predictions b n tag_to_mask = Some preds /\
    forall p, p < B * S ->
      exists k tag mask,
        tag_to_mask !! k = Some (tag, mask) /\
        (preds !! (p / S)) ≫= (fun row => row !! (p mod S)) = Some tag /\
        (forall k' tm', tag_to_mask !! k' = Some tm' ->
           xgt (tag_score H N (data b) (data n) (data tm'.2) p)
               (tag_score H N (data b) (data n) (data mask) p) = false) /\
        (forall k' tm', k' < k -> tag_to_mask !! k' = Some tm' ->
           xgt (tag_score H N (data b) (data n) (data mask) p)
               (tag_score H N (data b) (data n) (data tm'.2) p) = true).
Proof.
  intros Hshape HH Hb Hn Hne Hmasks.
  destruct (get_batch_predictions_total b n tag_to_mask B S H N)
    as (preds & Hret & _); try done.
  exists preds. split; [done |].
  rewrite (get_batch_predictions_by_index b n tag_to_mask B S H N) in Hret
    by done.
  apply mapM_Some_1 in Hret. intros p Hp.
  assert (0 < S) as HS by nia.
  set (score := fun (tm : Tag * tensor xreal) (q : nat) =>
                  tag_score H N (data b) (data n) (data tm.2) q) in *.
  set (best := fun q => argmax (map (fun tm => score tm q) tag_to_mask)) in *.
  assert (rows_of B S (map best (seq 0 (B * S))) !! (p / S)
          = Some (take S (drop (p / S * S) (map best (seq 0 (B * S))))))
    as Hrow.
  { unfold rows_of. rewrite list_lookup_fmap, lookup_seq_lt; [done |].
    apply Nat.Div0.div_lt_upper_bound. lia. }
  destruct (Forall2_lookup_l _ _ _ _ _ Hret Hrow) as (out & Hout & Hdecode).
  apply mapM_Some_1 in Hdecode.
  assert (take S (drop (p / S * S) (map best (seq 0 (B * S)))) !! (p mod S)
          = Some (best p)) as Hidx.
  { rewrite lookup_take_lt by (apply Nat.mod_upper_bound; lia).
    rewrite lookup_drop, (Nat.mul_comm (p / S) S), <- Nat.div_mod_eq.
    by rewrite list_lookup_fmap, lookup_seq_lt. }
  destruct (Forall2_lookup_l _ _ _ _ _ Hdecode Hidx) as (tag & Htag & Hlook).
  rewrite lookup_map_seq_0, list_lookup_fmap in Hlook.
  destruct (tag_to_mask !! best p) as [[tag' mask] |] eqn:Hk; [| done].
  injection Hlook as <-.
  destruct (argmax_spec (map (fun tm => score tm p) tag_to_mask))
    as (v & Hv & Hmax & Hfirst).
  { by destruct tag_to_mask. }
  fold (best p) in Hv, Hfirst.
  rewrite list_lookup_fmap, Hk in Hv. injection Hv as <-.
  exists (best p), tag', mask. split; [done |]. split.
  - by rewrite Hout.
  - split.
    + intros k' tm' Hk'. apply (Hmax k').
      by rewrite list_lookup_fmap, Hk'.
    + intros k' tm' Hlt Hk'. apply (Hfirst k'); [done |].
      by rewrite list_lookup_fmap, Hk'.
Qed.

(** X14. On well-shaped inputs the tag that [get_batch_predictions]
    gives a query token is the tag of the first table entry whose score
    for the token (log-sum-exp over the neighbors of log-softmax
    similarity plus mask) is greatest: no entry scores higher, and every
    earlier entry scores strictly lower. *)
Theorem get_batch_predictions_first_best {Tag : Type} (b n : tensor R)
    (tag_to_mask : list (Tag * tensor xreal)) (B S H N : nat) :
  shape b = [B; S; H] -> 0 < H ->
  length (data b) = B * S * H -> length (data n) = N * H ->
  tag_to_mask <> [] ->
  Forall (fun tm => shape tm.2 = [B * S; N]) tag_to_mask ->
  exists preds,
    get_batch_predictions b n tag_to_mask = Some preds /\
    forall p, p < B * S ->
      exists k tag mask,
        tag_to_mask !! k = Some (tag, mask) /\
        (preds !! (p / S)) ≫= (fun row => row !! (p mod S)) = Some tag /\
        (forall k' tm', tag_to_mask !! k' = Some tm' ->
           xgt (tag_score H N (data b) (data n) (data tm'.2) p)
               (tag_score H N (data b) (data n) (data mask) p) = false) /\
        (forall k' tm', k' < k -> tag_to_mask !! k' = Some tm' ->
           xgt (tag_score H N (data b) (data n) (data mask) p)
               (tag_score H N (data b) (data n) (data tm'.2) p) = true).
Proof. exact (decoded_tag_is_first_best b n tag_to_mask B S H N). Qed.

Lemma get_batch_predictions_first_best_witness :
  exists preds,
    get_batch_predictions one_query one_neighbor sample_tag_to_mask
    = Some preds /\
    forall p, p < 1 * 1 ->
      exists k tag mask,
        sample_tag_to_mask !! k = Some (tag, mask) /\
        (preds !! (p / 1)) ≫= (fun row => row !! (p mod 1)) = Some tag /\
        (forall k' tm', sample_tag_to_mask !! k' = Some tm' ->
           xgt (tag_score 1 1 (data one_query) (data one_neighbor)
                          (data tm'.2) p)
               (tag_score 1 1 (data one_query) (data one_neighbor)
                          (data mask) p) = false) /\
        (forall k' tm', k' < k -> sample_tag_to_mask !! k' = Some tm' ->
           xgt (tag_score 1 1 (data one_query) (data one_neighbor)
                          (data mask) p)
               (tag_score 1 1 (data one_query) (data one_neighbor)
                          (data tm'.2) p) = true).
Proof.
  apply (get_batch_predictions_first_best one_query one_neighbor
           sample_tag_to_mask 1 1 1 1).
  - reflexivity.
  - lia.
  - reflexivity.
  - reflexivity.
  - discriminate.
  - repeat constructor.
Defined.

Section MaskedScores.

Local Open Scope R_scope.



Variables (H N : nat) (query neighbor : list R) (mask : list xreal) (p : nat).



End MaskedScores.



(** *** [Model.get_word_representations] *)

Lemma dot_zeros (a v : list R) :
  Forall (fun c => c = 0%R) a -> dot a v = 0%R.
Proof.
  intros Ha. revert v. unfold dot.
  induction Ha as [| c a -> _ IH]; intros [| b v]; try done.
  cbn [zip_with]. rewrite Rsum_cons, IH. lra.
Qed.

Lemma mat_mul_zero_rows (m b res : list (list R)) :
  mat_mul m b = Some res -> Forall2 zero_to_zero m res.
Proof.
  unfold mat_mul. destruct (forallb _ m); [| done]. intros [= <-].
  apply Forall2_fmap_r, Forall_Forall2_diag, Forall_forall.
  intros a _ Ha. apply Forall_forall.
  intros v (j & -> & _)%list_elem_of_fmap. by apply dot_zeros.
Qed.

Lemma bmm_zero_rows (mapper bertrep results : list (list (list R))) :
  bmm mapper bertrep = Some results ->
  Forall2 (Forall2 zero_to_zero) mapper results.
Proof.
  unfold bmm. destruct (Nat.eqb_spec (length mapper) (length bertrep))
    as [Hlen |]; [| done].
  intros Hres%mapM_Some_1. revert bertrep results Hlen Hres.
  induction mapper as [| m mapper IH]; intros [| b bertrep] results Hlen Hres;
    try done.
  - inversion Hres. constructor.
  - cbn [zip_with] in Hres. inversion Hres as [| ? res ? results' Hm Hrest];
      subst. constructor.
    + by eapply mat_mul_zero_rows.
    + eapply IH; [| exact Hrest]. by injection Hlen.
Qed.

Lemma torch_split_concat {A : Type} (t : list A) (k : Z) (chunks : list (list A)) :
  torch_split t k = Some chunks -> concat chunks = t.
Proof.
  unfold torch_split. destruct (Z.ltb_spec k 0); [done |].
  destruct t as [| a t]; [by intros [= <-] |].
  destruct (Z.eqb_spec k 0); [done |]. intros [= <-].
  apply (split_chunks_concat (length (a :: t)) (Z.to_nat k) (a :: t)); lia.
Qed.

Lemma torch_split_same_count {A B : Type} (t : list A) (u : list B) (k : Z)
    (ts : list (list A)) (us : list (list B)) :
  length t = length u ->
  torch_split t k = Some ts -> torch_split u k = Some us ->
  length ts = length us.
Proof.
  unfold torch_split. intros Hlen. destruct (Z.ltb_spec k 0); [done |].
  destruct t as [| a t], u as [| b u]; try done.
  - by intros [= <-] [= <-].
  - destruct (Z.eqb_spec k 0); [done |]. intros Hts Hus.
    assert (ts = split_chunks (length (a :: t)) (Z.to_nat k) (a :: t)) as ->
      by congruence.
    assert (us = split_chunks (length (b :: u)) (Z.to_nat k) (b :: u)) as ->
      by congruence.
    rewrite <- (length_map length),
      <- (length_map length (split_chunks _ _ (b :: u))).
    f_equal. rewrite <- Hlen. by apply split_chunks_same_lengths.
Qed.

Lemma Forall2_concat_rows {A B : Type} (P : A -> B -> Prop)
    (ls : list (list A)) (ks : list (list B)) :
  Forall2 (Forall2 P) ls ks -> Forall2 P (concat ls) (concat ks).
Proof.
  induction 1 as [| l k ls ks Hlk _ IH]; [constructor |].
  cbn [concat]. by apply Forall2_app.
Qed.

Lemma torch_cat_data (parts : list rep) (r : rep) :
  torch_cat parts = Some r -> rep_data r = concat (map rep_data parts).
Proof. destruct parts; [done |]. by intros [= <-]. Qed.

(** X16. Word slots whose row of the mapping matrix is all zeros (the
    padding slots) get the zero vector, sharded or not; and the result
    has one vector per row of the mapping. *)
Theorem get_word_representations_zero_rows (model : Model)
    (grad_enabled : bool) (x : list (list Z)) (mapper : list (list (list R)))
    (shard : option Z) (r : rep) :
  length x = length mapper ->
  get_word_representations model grad_enabled x mapper shard = Some r ->
  Forall2 (Forall2 (fun mrow vec =>
                      Forall (fun c => c = 0%R) mrow ->
                      Forall (fun v => v = 0%R) vec))
          mapper (rep_data r).
Proof.
  intros Hlen Hret. change (Forall2 (Forall2 zero_to_zero) mapper (rep_data r)).
  destruct shard as [k |].
  - rewrite get_word_representations_sharded in Hret.
    destruct (torch_split x k) as [xs |] eqn:Hxs; [| done].
    destruct (torch_split mapper k) as [ms |] eqn:Hms; [| done].
    cbn [mbind option_bind] in Hret.
    destruct (mapM _ (zip xs ms)) as [parts |] eqn:Hparts; [| done].
    cbn [mbind option_bind] in Hret.
    pose proof (torch_split_same_count x mapper k xs ms Hlen Hxs Hms) as Hcount.
    rewrite <- (torch_split_concat mapper k ms Hms).
    rewrite (torch_cat_data parts r Hret).
    apply Forall2_concat_rows. apply mapM_Some_1 in Hparts.
    clear Hxs Hms Hlen Hret. revert ms parts Hcount Hparts.
    induction xs as [| xc xs IH]; intros [| mc ms] parts Hcount Hparts;
      try done.
    + inversion Hparts. constructor.
    + cbn [zip_with] in Hparts.
      inversion Hparts as [| ? p ? ps Hp Hrest]; subst. cbn [map].
      constructor.
      * rewrite get_word_representations_whole in Hp.
        destruct (bmm mc _) as [results |] eqn:Hbmm; [| done].
        injection Hp as <-. by eapply bmm_zero_rows.
      * apply IH; [by injection Hcount | done].
  - rewrite get_word_representations_whole in Hret.
    destruct (bmm mapper _) as [results |] eqn:Hbmm; [| done].
    injection Hret as <-. by eapply bmm_zero_rows.
Qed.

Lemma get_word_representations_zero_rows_witness :
  length toy_x = length toy_mapper /\
  exists r,
    get_word_representations toy_model true toy_x toy_mapper (Some 2%Z)
    = Some r /\
    Forall2 (Forall2 (fun mrow vec =>
                        Forall (fun c => c = 0%R) mrow ->
                        Forall (fun v => v = 0%R) vec))
            toy_mapper (rep_data r).
Proof.
  split; [reflexivity |]. eexists. split; [reflexivity |].
  eapply (get_word_representations_zero_rows toy_model true toy_x toy_mapper
            (Some 2%Z)); reflexivity.
Defined.

Section Identity.

Local Open Scope R_scope.

Lemma Rsum_app (l k : list R) : Rsum (l ++ k) = Rsum l + Rsum k.
Proof. induction l as [| a l IH]; simpl; [lra |]. rewrite IH. lra. Qed.

Lemma Rsum_indicator (f : nat -> R) (n i : nat) :
  Rsum (map (fun k => (if i =? k then 1 else 0) * f k) (seq 0 n))
  = if (i <? n)%nat then f i else 0.
Proof.
  induction n as [| n IH]; [done |].
  rewrite seq_S, map_app, Rsum_app, IH. cbn [map Nat.add]. rewrite Rsum_cons.
  simpl Rsum.
  destruct (Nat.ltb_spec i n), (Nat.ltb_spec i (S n)), (Nat.eqb_spec i n);
    try lia; subst; lra.
Qed.

Lemma dot_unit (s i : nat) (v : list R) :
  length v = s -> (i < s)%nat ->
  dot (map (fun k => if i =? k then 1 else 0) (seq 0 s)) v = nth i v 0.
Proof.
  intros Hlen Hi.
  rewrite dot_by_index by (by rewrite length_map, length_seq).
  rewrite length_map, length_seq.
  rewrite (map_seq_ext _ (fun k => (if i =? k then 1 else 0) * nth k v 0)).
  2:{ intros k Hk. by rewrite (nth_map_seq _ 0 s k) by lia. }
  rewrite Rsum_indicator. by destruct (Nat.ltb_spec i s); [| lia].
Qed.

(** The identity mapping selects every sub-word vector as it is. *)
Lemma mat_mul_identity (s h : nat) (B : list (list R)) :
  length B = s -> Forall (fun row => length row = h) B ->
  mat_mul (identity_matrix s) B = Some B.
Proof.
  intros Hlen Hrows. unfold mat_mul, identity_matrix.
  replace (forallb _ _) with true.
  2:{ symmetry. apply forallb_forall.
      intros a (i & <- & _)%in_map_iff.
      rewrite length_map, length_seq. apply Nat.eqb_eq. lia. }
  f_equal. rewrite map_map.
  etransitivity; [| apply (map_nth_seq [] B)]. rewrite Hlen.
  apply map_seq_ext. intros i Hi.
  assert (length (nth i B []) = h) as Hrow.
  { rewrite Forall_forall in Hrows. apply Hrows, list_elem_of_In, nth_In. lia. }
  assert (length (hd [] B) = h) as ->.
  { destruct B as [| row B]; [simpl in Hlen; lia |].
    by apply Forall_cons in Hrows as [? _]. }
  etransitivity; [| apply (map_nth_seq 0 (nth i B []))]. rewrite Hrow.
  apply map_seq_ext. intros j Hj.
  rewrite dot_unit; [| by unfold column; rewrite length_map | lia].
  unfold column.
  rewrite (nth_indep _ 0 ((fun row => nth j row 0) []))
    by (rewrite length_map; lia).
  by rewrite (map_nth (fun row => nth j row 0)).
Qed.

End Identity.

Lemma bmm_identity (s h : nat) (out : list (list (list R))) :
  Forall (fun m => length m = s /\ Forall (fun row => length row = h) m) out ->
  bmm (replicate (length out) (identity_matrix s)) out = Some out.
Proof.
  intros Hout. unfold bmm. rewrite length_replicate, Nat.eqb_refl.
  apply mapM_Some_2.
  induction Hout as [| m out [Hlen Hrows] _ IH]; [constructor |].
  cbn [length replicate zip_with]. constructor; [| done].
  by eapply mat_mul_identity.
Qed.

(** X17. With the identity as word-to-sub-word mapping of every
    sentence, the extractor returns the encoder's output unchanged
    (on an encoder output of [B x S x H] for a batch of [B]). *)
Theorem get_word_representations_identity (model : Model)
    (grad_enabled : bool) (x : list (list Z)) (S H : nat) :
  length (bert model x (attention_mask x)) = length x ->
  Forall (fun m => length m = S /\ Forall (fun row => length row = H) m)
         (bert model x (attention_mask x)) ->
  get_word_representations model grad_enabled x
    (replicate (length x) (identity_matrix S)) None
  = Some (Rep (bert model x (attention_mask x))
              (grad_enabled && trainable model)).
Proof.
  intros Hlen Hout. rewrite get_word_representations_whole.
  rewrite <- Hlen. by rewrite (bmm_identity S H).
Qed.

Lemma get_word_representations_identity_witness :
  length (bert toy_model toy_x (attention_mask toy_x)) = length toy_x /\
  Forall (fun m => length m = 2 /\ Forall (fun row => length row = 2) m)
         (bert toy_model toy_x (attention_mask toy_x)) /\
  get_word_representations toy_model true toy_x
    (replicate (length toy_x) (identity_matrix 2)) None
  = Some (Rep (bert toy_model toy_x (attention_mask toy_x))
              (true && trainable toy_model)).
Proof.
  assert (Forall (fun m => length m = 2 /\
                           Forall (fun row => length row = 2) m)
                 (bert toy_model toy_x (attention_mask toy_x))) as Hout.
  { repeat constructor. }
  split; [reflexivity |]. split; [exact Hout |].
  apply (get_word_representations_identity toy_model true toy_x 2 2);
    [reflexivity | exact Hout].
Defined.

Lemma split_chunks_single {A : Type} (fuel k : nat) (t : list A) :
  t <> [] -> length t <= k -> 0 < fuel -> split_chunks fuel k t = [t].
Proof.
  intros Ht Hk Hfuel. destruct fuel as [| fuel]; [lia |].
  destruct t as [| a t]; [done |]. cbn [split_chunks].
  rewrite take_ge, drop_ge by done. by destruct fuel.
Qed.

(** X18. A shard size that is at least the batch size changes nothing,
    whatever the encoder: the one chunk is the whole batch. *)
Theorem get_word_representations_one_shard (model : Model)
    (grad_enabled : bool) (x : list (list Z)) (mapper : list (list (list R)))
    (k : Z) :
  (1 <= k)%Z -> (Z.of_nat (length x) <= k)%Z -> length x = length mapper ->
  get_word_representations model grad_enabled x mapper (Some k)
  = get_word_representations model grad_enabled x mapper None.
Proof.
  intros Hk HB Hlen. rewrite get_word_representations_sharded.
  assert (forall r : option rep,
            (part ← r; torch_cat [part]) = r) as Hone.
  { intros [[d rg] |]; [| done]. simpl. unfold torch_cat. simpl.
    by rewrite app_nil_r, orb_false_r. }
  destruct x as [| x0 x].
  - destruct mapper; [| done]. unfold torch_split.
    destruct (Z.ltb_spec k 0); [lia |]. cbn [mbind option_bind zip_with mapM].
    rewrite <- (Hone (get_word_representations model grad_enabled [] [] None))
      at 2.
    by destruct (get_word_representations model grad_enabled [] [] None).
  - destruct mapper as [| m0 mapper]; [done |].
    rewrite !torch_split_chunks by done. cbn [mbind option_bind].
    rewrite !split_chunks_single by (done || simpl in *; lia).
    cbn [zip_with mapM].
    rewrite <- (Hone (get_word_representations model grad_enabled
                        (x0 :: x) (m0 :: mapper) None)) at 2.
    by destruct (get_word_representations model grad_enabled
                   (x0 :: x) (m0 :: mapper) None).
Qed.

Lemma get_word_representations_one_shard_witness :
  (1 <= 3)%Z /\ (Z.of_nat (length toy_x) <= 3)%Z /\
  length toy_x = length toy_mapper /\
  get_word_representations toy_model true toy_x toy_mapper (Some 3%Z)
  = get_word_representations toy_model true toy_x toy_mapper None.
Proof.
  split; [lia |]. split; [simpl; lia |]. split; [reflexivity |].
  apply (get_word_representations_one_shard toy_model true toy_x toy_mapper 3);
    [lia | simpl; lia | reflexivity].
Defined.

(** *** [main]: parameter groups *)

Lemma append_cons (c : Ascii.ascii) (a b : string) :
  String.append (String c a) b = String c (String.append a b).
Proof. reflexivity. Qed.

Lemma prefix_append (a s : string) :
  String.prefix a s = true <-> exists post, s = String.append a post.
Proof.
  revert s. induction a as [| c a IH]; intros s.
  - split; [intros _; by exists s | intros _; by destruct s].
  - destruct s as [| d s]; cbn [String.prefix].
    + split; [done | by intros [post Hpost]].
    + destruct (Ascii.ascii_dec c d) as [-> | Hneq].
      * rewrite IH. split; intros [post Hpost]; exists post;
          rewrite append_cons in *; congruence.
      * split; [done |]. intros [post Hpost]. rewrite append_cons in Hpost.
        congruence.
Qed.

Lemma append_assoc' (a b c : string) :
  String.append (String.append a b) c = String.append a (String.append b c).
Proof.
  induction a as [| x a IH]; [done |]. rewrite !append_cons. by f_equal.
Qed.

Lemma contains_spec (sub s : string) :
  contains sub s = true
  <-> exists pre post, s = String.append pre (String.append sub post).
Proof.
  induction s as [| c s IH]; cbn [contains].
  - rewrite orb_false_r, prefix_append. split.
    + intros [post Hpost]. by exists EmptyString, post.
    + intros [[| x pre] [post Hpost]]; [by exists post | done].
  - rewrite orb_true_iff, prefix_append, IH. split.
    + intros [[post Hpost] | [pre [post Hpost]]].
      * by exists EmptyString, post.
      * exists (String c pre), post. rewrite append_cons. by f_equal.
    + intros [[| x pre] [post Hpost]].
      * left. by exists post.
      * right. exists pre, post. rewrite append_cons in Hpost. congruence.
Qed.

Lemma contains_longer (a b s : string) :
  contains (String.append a b) s = true -> contains b s = true.
Proof.
  rewrite !contains_spec. intros [pre [post Hs]].
  exists (String.append pre a), post. by rewrite Hs, !append_assoc'.
Qed.

Lemma any_no_decay_two (n : string) :
  any_no_decay n
  = contains "bias" n || contains "LayerNorm.weight" n.
Proof.
  unfold any_no_decay, no_decay. cbn [existsb]. rewrite orb_false_r.
  destruct (contains "bias" n) eqn:Hbias; [done |].
  destruct (contains "LayerNorm.bias" n) eqn:Hln; [| done].
  apply (contains_longer "LayerNorm." "bias") in Hln. congruence.
Qed.

Lemma filter_split_Permutation {A : Type} (f : A -> bool) (l : list A) :
  Permutation (List.filter (fun a => negb (f a)) l ++ List.filter f l) l.
Proof.
  induction l as [| a l IH]; [done |]. cbn [List.filter].
  destruct (f a); cbn [negb app].
  - rewrite <- Permutation_middle. by constructor.
  - by constructor.
Qed.

(** X19. Every parameter of the model is handed to the optimizer in
    exactly one of the two groups: the groups' parameters, taken
    together, are those of [named_parameters], each as often as it is
    listed there. *)
Theorem parameter_groups_partition {P : Type}
    (named_parameters : list (string * P)) :
  Permutation (concat (map group_params (parameter_groups named_parameters)))
              (map snd named_parameters).
Proof.
  unfold parameter_groups. cbn [map concat group_params].
  rewrite app_nil_r, <- map_app. apply Permutation_map.
  apply (filter_split_Permutation (fun np => any_no_decay (fst np))).
Qed.

(** X20. The entry ["LayerNorm.bias"] of [no_decay] changes nothing: the
    group without weight decay holds exactly the parameters whose name
    contains ["bias"] or ["LayerNorm.weight"], in their order, and the
    group with weight decay 0.01 holds the others. *)
Theorem parameter_groups_by_two_patterns {P : Type}
    (named_parameters : list (string * P)) :
  parameter_groups named_parameters
  = [ ParamGroup
        (map snd
           (List.filter
              (fun np => negb (contains "bias" (fst np)
                               || contains "LayerNorm.weight" (fst np)))
              named_parameters))
        (1 # 100);
      ParamGroup
        (map snd
           (List.filter
              (fun np => contains "bias" (fst np)
                         || contains "LayerNorm.weight" (fst np))
              named_parameters))
        0 ].
Proof.
  unfold parameter_groups.
  rewrite (List.filter_ext (fun np => negb (any_no_decay (fst np)))
             (fun np => negb (contains "bias" (fst np)
                              || contains "LayerNorm.weight" (fst np))))
    by (intros np; by rewrite any_no_decay_two).
  rewrite (List.filter_ext (fun np => any_no_decay (fst np))
             (fun np => contains "bias" (fst np)
                        || contains "LayerNorm.weight" (fst np)))
    by (intros np; by rewrite any_no_decay_two).
  reflexivity.
Qed.

(** *** [main]: the epoch loop *)

Lemma improves_spec (f1 b : Q) :
  (improves f1 (Some b) = true -> (b < f1)%Q)
  /\ (improves f1 (Some b) = false -> (f1 <= b)%Q).
Proof.
  unfold improves. destruct (Qle_bool f1 b) eqn:Hle; cbn [negb].
  - split; [done |]. intros _. by apply Qle_bool_iff.
  - split; [| done]. intros _. apply Qnot_le_lt. intros Hc.
    apply Qle_bool_iff in Hc. congruence.
Qed.

Lemma epoch_loop_snoc {W : Type} (save : bool) (epochs : list (W * Q))
    (epoch : W * Q) :
  epoch_loop save (epochs ++ [epoch])
  = epoch_step save (epoch_loop save epochs) epoch.
Proof. unfold epoch_loop. by rewrite fold_left_app. Qed.

Lemma epoch_loop_first_best {W : Type} (save : bool)
    (epochs : list (W * Q)) :
  epochs <> [] ->
  exists (e : nat) (w : W) (b : Q),
    epochs !! e = Some (w, b)
    /\ best_f1 (epoch_loop save epochs) = Some b
    /\ saved (epoch_loop save epochs) = (if save then Some w else None)
    /\ (forall e' w' f', epochs !! e' = Some (w', f') -> (f' <= b)%Q)
    /\ (forall e' w' f',
          e' < e -> epochs !! e' = Some (w', f') -> (f' < b)%Q).
Proof.
  induction epochs as [| [wn fn] epochs IH] using rev_ind; [done |].
  intros _. rewrite epoch_loop_snoc. destruct epochs as [| ep0 epochs0].
  - exists 0, wn, fn. cbn. repeat split.
    + intros [| e'] w' f' Hlook; [| done]. injection Hlook as _ <-.
      apply Qle_refl.
    + intros e' w' f' He'. lia.
  - set (epochs := ep0 :: epochs0) in *.
    destruct IH as (e & w & b & Hlook & Hbest & Hsaved & Hmax & Hfirst);
      [done |].
    pose proof (lookup_lt_Some _ _ _ Hlook) as He.
    unfold epoch_step. rewrite Hbest. cbn [snd fst].
    destruct (improves fn (Some b)) eqn:Himp.
    + apply improves_spec in Himp.
      exists (length epochs), wn, fn. cbn [best_f1 saved]. repeat split.
      * by rewrite lookup_app_r, Nat.sub_diag.
      * rewrite Hsaved. by destruct save.
      * intros e' w' f' Hl. apply lookup_app_Some in Hl.
        destruct Hl as [Hl | [_ Hl]].
        -- apply Qlt_le_weak. eapply Qle_lt_trans; [by eapply Hmax | done].
        -- destruct (e' - length epochs) as [| d]; [| done].
           injection Hl as _ <-. apply Qle_refl.
      * intros e' w' f' He' Hl. rewrite lookup_app_l in Hl by done.
        eapply Qle_lt_trans; [by eapply Hmax | done].
    + apply improves_spec in Himp.
      exists e, w, b. repeat split.
      * by rewrite lookup_app_l.
      * done.
      * done.
      * intros e' w' f' Hl. apply lookup_app_Some in Hl.
        destruct Hl as [Hl | [_ Hl]]; [by eapply Hmax |].
        destruct (e' - length epochs) as [| d]; [| done].
        by injection Hl as _ <-.
      * intros e' w' f' He' Hl. rewrite lookup_app_l in Hl by lia.
        by eapply Hfirst.
Qed.

(** X21. After the epoch loop of [main] over at least one epoch,
    [best_f1] is the F1 of the first epoch that reaches the maximum over
    all epochs, and the file [cfg.save], when one is configured, holds
    the weights of that epoch (a later epoch with the same F1 does not
    overwrite it); without [cfg.save] nothing is written. *)
Theorem epoch_loop_keeps_first_best {W : Type} (save : bool)
    (epochs : list (W * Q)) :
  epochs <> [] ->
  exists (e : nat) (w : W) (b : Q),
    epochs !! e = Some (w, b)
    /\ best_f1 (epoch_loop save epochs) = Some b
    /\ saved (epoch_loop save epochs) = (if save then Some w else None)
    /\ (forall e' w' f', epochs !! e' = Some (w', f') -> (f' <= b)%Q)
    /\ (forall e' w' f',
          e' < e -> epochs !! e' = Some (w', f') -> (f' < b)%Q).
Proof. exact (epoch_loop_first_best save epochs). Qed.

Lemma epoch_loop_keeps_first_best_witness :
  toy_epochs <> []
  /\ epoch_loop true toy_epochs = BestState (Some (3 # 4)) (Some "w1"%string)
  /\ exists (e : nat) (w : string) (b : Q),
       toy_epochs !! e = Some (w, b)
       /\ best_f1 (epoch_loop true toy_epochs) = Some b
       /\ saved (epoch_loop true toy_epochs) = Some w
       /\ (forall e' w' f', toy_epochs !! e' = Some (w', f') -> (f' <= b)%Q)
       /\ (forall e' w' f',
             e' < e -> toy_epochs !! e' = Some (w', f') -> (f' < b)%Q).
Proof.
  split; [discriminate |]. split; [reflexivity |].
  apply (epoch_loop_keeps_first_best true toy_epochs). discriminate.
Defined.

(** *** [embedding_fun] *)

Section Embedding.

Local Open Scope R_scope.





End Embedding.





